(** * incipyt: lazy configuration trees

    A shallow embedding of [incipyt/_internal/utils.py] and
    [incipyt/_internal/templates.py]: template expressions ([Requires]),
    conflict sets ([MultipleValues]), the tree builder ([TemplateDict]) and
    the materializer ([TemplateVisitor]), followed by the properties stated
    about them.

    Python dictionaries keep insertion order and the order of the effects on
    the environment follows it, so a dictionary is an association list
    without duplicate keys: assignment to a present key replaces the value in
    place, assignment to an absent key appends.  The nested structure is a
    value; no object is shared between two places of it. *)

From Stdlib Require Import List String Ascii Bool Arith.
From Stdlib Require Import Permutation Sorted.
Import ListNotations.
Open Scope string_scope.

(** * The model *)

(** ** Python objects *)

(** The wrap function carried by a [Transform] pair: the class [Requires]
    (the default of [TemplateDict._get_transform]), the [lambda x: x] default
    of the [Transform] tuple, or any other function, known by its identity. *)
Inductive transform : Type :=
| TRequires
| TIdentity
| TCustom (id : nat).

(** The objects that reach the code: raw values, callables, [Transform]
    pairs, lists and dictionaries (string keys).  [PFun] is any callable other
    than an instance of [Requires] or [MultipleValues]; Python compares such
    objects by identity, here the identifier.  A sanitizer is a function too
    and is known by its identifier.  Tuples other than [Transform] and numbers
    are not modelled. *)
#[warnings="-register-all"]
Inductive obj : Type :=
| PNone
| PBool (b : bool)
| PStr (s : string)
| PFun (id : nat)
| PRequires (template : obj) (confirmed : bool) (sanitizer : option nat)
            (kwargs : list (string * obj))
| PMultiple (values : list obj)
| PTransform (value : obj) (tr : transform)
| PList (elements : list obj)
| PDict (entries : list (string * obj)).

Definition dict := list (string * obj).

(** A function object seen as a plain object (the second component of a
    [Transform] tuple when the tuple is iterated): the class [Requires] and
    the default lambda are functions like any other, with reserved
    identifiers. *)
Definition obj_of_transform (t : transform) : obj :=
  match t with
  | TRequires => PFun 0
  | TIdentity => PFun 1
  | TCustom id => PFun (2 + id)
  end.

(** The exceptions the code can meet.  [Unmodelled] is not one of Python:
    it is the outcome of resolving a template outside the modelled syntax
    (see [parse]). *)
Inductive exn : Type :=
| TypeError
| ValueError
| AssertionError
| IndexError
| KeyError
| AttributeError
| Unmodelled.

Inductive result (A : Type) : Type :=
| Ok (a : A)
| Raise (e : exn).
Arguments Ok {A} a.
Arguments Raise {A} e.

(** ** Dictionaries *)

Fixpoint lookup {A : Type} (k : string) (d : list (string * A)) : option A :=
  match d with
  | [] => None
  | (k', v) :: d' => if String.eqb k k' then Some v else lookup k d'
  end.

(** [d[k] = v] *)
Fixpoint dict_set {A : Type} (k : string) (v : A) (d : list (string * A))
  : list (string * A) :=
  match d with
  | [] => [(k, v)]
  | (k', v') :: d' =>
      if String.eqb k k' then (k', v) :: d' else (k', v') :: dict_set k v d'
  end.

Definition dict_keys {A : Type} (d : list (string * A)) : list string :=
  map fst d.

Definition dict_values {A : Type} (d : list (string * A)) : list A :=
  map snd d.

(** ** Truth, callability, equality *)

(** [bool(v)] *)
Definition truthy (v : obj) : bool :=
  match v with
  | PNone => false
  | PBool b => b
  | PStr s => negb (String.eqb s "")
  | PFun _ | PRequires _ _ _ _ | PMultiple _ | PTransform _ _ => true
  | PList l => match l with [] => false | _ => true end
  | PDict d => match d with [] => false | _ => true end
  end.

(** [callable(v)] *)
Definition callable (v : obj) : bool :=
  match v with
  | PFun _ | PRequires _ _ _ _ | PMultiple _ => true
  | _ => false
  end.

Definition is_none (v : obj) : bool :=
  match v with PNone => true | _ => false end.

Definition is_multiple (v : obj) : bool :=
  match v with PMultiple _ => true | _ => false end.

Definition transform_eqb (t u : transform) : bool :=
  match t, u with
  | TRequires, TRequires => true
  | TIdentity, TIdentity => true
  | TCustom i, TCustom j => Nat.eqb i j
  | _, _ => false
  end.

Definition option_nat_eqb (a b : option nat) : bool :=
  match a, b with
  | None, None => true
  | Some i, Some j => Nat.eqb i j
  | _, _ => false
  end.

(** Python's [a == b].  [Requires.__eq__] and [MultipleValues.__eq__] go
    through [attrs_eq]: the listed attributes are compared, and an operand
    without them (any object of another class) gives [False].  Dictionaries
    compare without regard to order. *)
Fixpoint py_eq (a b : obj) {struct a} : bool :=
  match a, b with
  | PNone, PNone => true
  | PBool x, PBool y => Bool.eqb x y
  | PStr x, PStr y => String.eqb x y
  | PFun i, PFun j => Nat.eqb i j
  | PRequires t c s kw, PRequires t' c' s' kw' =>
      py_eq t t' && Bool.eqb c c' && option_nat_eqb s s'
      && Nat.eqb (List.length kw) (List.length kw')
      && (fix entries (d : dict) : bool :=
            match d with
            | [] => true
            | (k, v) :: d' =>
                match lookup k kw' with
                | Some v' => py_eq v v' && entries d'
                | None => false
                end
            end) kw
  | PMultiple l, PMultiple l' =>
      (fix seq (xs ys : list obj) : bool :=
         match xs, ys with
         | [], [] => true
         | x :: xs', y :: ys' => py_eq x y && seq xs' ys'
         | _, _ => false
         end) l l'
  | PTransform v t, PTransform v' t' => py_eq v v' && transform_eqb t t'
  | PList l, PList l' =>
      (fix seq (xs ys : list obj) : bool :=
         match xs, ys with
         | [], [] => true
         | x :: xs', y :: ys' => py_eq x y && seq xs' ys'
         | _, _ => false
         end) l l'
  | PDict d, PDict d' =>
      Nat.eqb (List.length d) (List.length d')
      && (fix entries (e : dict) : bool :=
            match e with
            | [] => true
            | (k, v) :: e' =>
                match lookup k d' with
                | Some v' => py_eq v v' && entries e'
                | None => false
                end
            end) d
  | _, _ => false
  end.

(** [v in l] for a list [l] *)
Definition py_in (v : obj) (l : list obj) : bool :=
  existsb (fun x => py_eq x v) l.

(** [t in s] for strings: [t] occurs in [s] *)
Fixpoint substring_of (t s : string) : bool :=
  String.prefix t s
  || match s with
     | EmptyString => false
     | String _ s' => substring_of t s'
     end.

(** ** [string.Formatter().parse]

    The items of [Formatter().parse(template)], each reduced to the two
    components the code reads: the literal text and the field name ([None]
    for a stretch of text that no replacement field follows).  The iterator is
    lazy: it yields the items that precede a syntax error before raising
    [ValueError].

    Modelled: literal text, the escapes [{{] and [}}], and replacement
    fields [{name}] whose name is a plain keyword.  A field with a conversion
    ([!r]), a format specification ([:>3]), attribute or index access, or a
    name that is or may be positional (empty or numeric, see [all_digits])
    ends the iteration with [PUnmodelled]: the model is silent about such
    templates. *)

Inductive parse_end : Type :=
| PEnd
| PValueError
| PUnmodelled.

Definition item := (string * option string)%type.

Inductive mode : Type :=
| InLiteral (text : string)
| InField (text : string) (name : string).

Definition snoc (s : string) (c : ascii) : string :=
  s ++ String c EmptyString.

Definition is_digit (c : ascii) : bool :=
  let n := nat_of_ascii c in Nat.leb 48 n && Nat.leb n 57.

(** A character outside ASCII.  [str.format] takes a field name made of
    decimal digits for a position, and every decimal digit of Unicode counts,
    not only [0] to [9]; the others are written outside ASCII. *)
Definition beyond_ascii (c : ascii) : bool :=
  Nat.leb 128 (nat_of_ascii c).

(** The field name is or may be a number: each of its characters is a digit
    [0] to [9] or lies outside ASCII.  The empty name, positional too, is
    one. *)
Fixpoint all_digits (s : string) : bool :=
  match s with
  | EmptyString => true
  | String c s' => (is_digit c || beyond_ascii c) && all_digits s'
  end.

Definition yield (i : item) (r : list item * parse_end)
  : list item * parse_end :=
  (i :: fst r, snd r).

Fixpoint scan (s : string) (m : mode) {struct s} : list item * parse_end :=
  match s with
  | EmptyString =>
      match m with
      | InLiteral EmptyString => ([], PEnd)
      | InLiteral text => ([(text, None)], PEnd)
      | InField _ _ => ([], PValueError)
      end
  | String c rest =>
      match m with
      | InLiteral text =>
          if Ascii.eqb c "{"%char then
            match rest with
            | EmptyString => ([], PValueError)
            | String c' rest' =>
                if Ascii.eqb c' "{"%char
                then yield (snoc text "{"%char, None)
                           (scan rest' (InLiteral ""))
                else scan rest (InField text "")
            end
          else if Ascii.eqb c "}"%char then
            match rest with
            | EmptyString => ([], PValueError)
            | String c' rest' =>
                if Ascii.eqb c' "}"%char
                then yield (snoc text "}"%char, None)
                           (scan rest' (InLiteral ""))
                else ([], PValueError)
            end
          else scan rest (InLiteral (snoc text c))
      | InField text name =>
          if Ascii.eqb c "}"%char then
            if all_digits name then ([], PUnmodelled)
            else yield (text, Some name) (scan rest (InLiteral ""))
          else if Ascii.eqb c "{"%char then ([], PValueError)
          else if Ascii.eqb c "["%char || Ascii.eqb c ":"%char
                  || Ascii.eqb c "!"%char || Ascii.eqb c "."%char
          then ([], PUnmodelled)
          else scan rest (InField text (snoc name c))
      end
  end.

Definition parse (template : string) : list item * parse_end :=
  scan template (InLiteral "").

(** The field names of the items, [None] entries included. *)
Definition item_keys (items : list item) : list (option string) :=
  map snd items.

(** The field names that are not [None], one per occurrence. *)
Fixpoint fields (items : list item) : list string :=
  match items with
  | [] => []
  | (_, Some k) :: items' => k :: fields items'
  | (_, None) :: items' => fields items'
  end.

(** ** State and exceptions

    A computation reads and updates a state and either returns or raises.
    The state is kept when an exception is raised: Python does not undo the
    effects that came before it. *)

Definition M (S A : Type) : Type := S -> result A * S.

Definition ret {S A : Type} (a : A) : M S A := fun s => (Ok a, s).

Definition raise {S A : Type} (e : exn) : M S A := fun s => (Raise e, s).

Definition bind {S A B : Type} (m : M S A) (f : A -> M S B) : M S B :=
  fun s =>
    match m s with
    | (Ok a, s') => f a s'
    | (Raise e, s') => (Raise e, s')
    end.

Notation "x <- m ;; k" := (bind m (fun x => k))
  (at level 61, m at next level, right associativity).

Definition mapM {S A B : Type} (f : A -> M S B) : list A -> M S (list B) :=
  fix go (l : list A) : M S (list B) :=
    match l with
    | [] => ret []
    | x :: l' => y <- f x ;; ys <- go l' ;; ret (y :: ys)
    end.

(** [with contextlib.suppress(ValueError): return m], and [None] returned
    by falling off the end of the function *)
Definition suppress_ValueError {S : Type} (m : M S obj) : M S obj :=
  fun s =>
    match m s with
    | (Raise ValueError, s') => (Ok PNone, s')
    | r => r
    end.

(** ** What the code is given

    The environment ([incipyt.system.Environment]), [click.prompt] and the
    functions a caller passes in are not in these two modules; the code is
    parametric in them.  [W] is the state they share: the content of the
    environment and the console.

    - [push], [pull]: the two calls of [utils.Requires.__call__];
    - [env_getitem], [env_setitem]: [data[key]] and
      [data[key] = EnvValue(value, confirmed=confirmed)] of
      [templates.RenderContext], the key of a read being possibly [None];
    - [prompt choices]: [click.prompt(..., type=click.Choice(choices))];
    - [fun_call id]: the call [f(environment)] of the function [PFun id];
    - [sanitize id key value]: the call of the sanitizer [id];
    - [repr v]: [str(v)] for an object that is not a string, a boolean or
      [None];
    - [set_rank keys key]: the place of [key] when the interpreter iterates
      the set made of [keys].  The order of a set follows the hashes of its
      elements, which for strings change from one run of the interpreter to
      the next; the code is parametric in it too (see [iter_set]). *)

Record Runtime (W : Type) : Type := {
  push : string -> obj -> bool -> W -> W;
  pull : string -> W -> obj * W;
  env_getitem : option string -> W -> result obj * W;
  env_setitem : string -> obj -> bool -> W -> W;
  prompt : list obj -> W -> result obj * W;
  fun_call : nat -> W -> result obj * W;
  sanitize : nat -> option string -> obj -> obj;
  repr : obj -> string;
  set_rank : list (option string) -> option string -> nat
}.
Arguments push {W} _ _ _ _ _.
Arguments pull {W} _ _ _.
Arguments env_getitem {W} _ _ _.
Arguments env_setitem {W} _ _ _ _ _.
Arguments prompt {W} _ _ _.
Arguments fun_call {W} _ _ _.
Arguments sanitize {W} _ _ _ _.
Arguments repr {W} _ _.
Arguments set_rank {W} _ _ _.

(** The two modules define the same classes; [m] tells which of them a
    structure is built and resolved with. *)
Inductive module : Type :=
| utils
| templates.

(** ** [Requires] and [MultipleValues] *)

(** [MultipleValues.__init__] (the same in both modules): the list stored in
    [_values]. *)
Definition MultipleValues_init (head tail : obj) : obj :=
  match tail with
  | PMultiple values => PMultiple (head :: values)
  | _ => PMultiple [head; tail]
  end.

(** [MultipleValues.from_items] ([templates] only): the candidates as
    given. *)
Definition from_items (args : list obj) : obj := PMultiple args.

Section Resolution.

Context {W : Type} (rt : Runtime W).

(** What [str.format] puts in place of a field: [str(v)]. *)
Definition str_of (v : obj) : string :=
  match v with
  | PStr s => s
  | PNone => "None"
  | PBool true => "True"
  | PBool false => "False"
  | _ => repr rt v
  end.

(** [template.format] applied to the unpacked [args], on the parsed template *)
Fixpoint format_items (items : list item) (args : dict) : result string :=
  match items with
  | [] => Ok ""
  | (text, field) :: items' =>
      match field with
      | None =>
          match format_items items' args with
          | Ok s => Ok (text ++ s)
          | Raise e => Raise e
          end
      | Some k =>
          match lookup k args with
          | None => Raise KeyError
          | Some v =>
              match format_items items' args with
              | Ok s => Ok (text ++ str_of v ++ s)
              | Raise e => Raise e
              end
          end
      end
  end.

Definition apply_sanitizer (sanitizer : option nat) (key : option string)
  (value : obj) : obj :=
  match sanitizer with
  | Some f => sanitize rt f key value
  | None => value
  end.

(** *** [utils.Requires.__call__] *)

(** The first loop: one [push] per item whose key is in [_kwargs]. *)
Fixpoint push_overrides (kwargs : dict) (confirmed : bool)
  (items : list item) (w : W) : W :=
  match items with
  | [] => w
  | (_, None) :: items' => push_overrides kwargs confirmed items' w
  | (_, Some key) :: items' =>
      match lookup key kwargs with
      | None => push_overrides kwargs confirmed items' w
      | Some v =>
          push_overrides kwargs confirmed items' (push rt key v confirmed w)
      end
  end.

(** The dictionary comprehension: one [pull] per item whose key is not
    [None]; a key met again overwrites its entry. *)
Fixpoint pull_args (sanitizer : option nat) (keys : list string)
  (args : dict) (w : W) : dict * W :=
  match keys with
  | [] => (args, w)
  | key :: keys' =>
      let (v, w') := pull rt key w in
      pull_args sanitizer keys'
        (dict_set key (apply_sanitizer sanitizer (Some key) v) args) w'
  end.

Definition any_falsy (values : list obj) : bool :=
  existsb (fun v => negb (truthy v)) values.

Definition Requires_call (template : obj) (confirmed : bool)
  (sanitizer : option nat) (kwargs : dict) : M W obj :=
  match template with
  | PStr t =>
      fun w =>
        let (items, stop) := parse t in
        let w1 := push_overrides kwargs confirmed items w in
        match stop with
        | PValueError => (Raise ValueError, w1)
        | PUnmodelled => (Raise Unmodelled, w1)
        | PEnd =>
            let (args, w2) := pull_args sanitizer (fields items) [] w1 in
            if any_falsy (dict_values args) then (Ok PNone, w2)
            else
              match format_items items args with
              | Ok s => (Ok (PStr s), w2)
              | Raise e => (Raise e, w2)
              end
        end
  | _ => raise TypeError
  end.

(** *** [templates.RenderContext] and [templates.Requires.__call__] *)

Definition key_eqb (a b : option string) : bool :=
  match a, b with
  | None, None => true
  | Some x, Some y => String.eqb x y
  | _, _ => false
  end.

(** The elements of the set [_keys], each once, listed as they came in.
    This is not the order of iteration: see [iter_set]. *)
Fixpoint set_of (keys : list (option string)) : list (option string) :=
  match keys with
  | [] => []
  | k :: keys' =>
      k :: filter (fun k' => negb (key_eqb k k')) (set_of keys')
  end.

(** [k] put before the first element of [l] that has no smaller rank. *)
Fixpoint insert_by (rank : option string -> nat) (k : option string)
  (l : list (option string)) : list (option string) :=
  match l with
  | [] => [k]
  | k' :: l' =>
      if Nat.leb (rank k) (rank k') then k :: l
      else k' :: insert_by rank k l'
  end.

Fixpoint sort_by (rank : option string -> nat) (l : list (option string))
  : list (option string) :=
  match l with
  | [] => []
  | k :: l' => insert_by rank k (sort_by rank l')
  end.

(** The place of the first [k] in [l]. *)
Fixpoint index_of (l : list (option string)) (k : option string) : nat :=
  match l with
  | [] => 0
  | k' :: l' => if key_eqb k k' then 0 else S (index_of l' k)
  end.

(** [iter(self._keys)]: the elements of the set in the order of the
    interpreter, the same each time the set is iterated.  Every order of
    the elements is the one of some [set_rank], the place in the order for
    instance ([index_of], [every_order_is_possible]). *)
Definition iter_set (keys : list (option string)) : list (option string) :=
  sort_by (set_rank rt (set_of keys)) (set_of keys).

(** [for key in self: if key in kwargs: self.data[key] = EnvValue(...)] *)
Fixpoint set_overrides (kwargs : dict) (confirmed : bool)
  (keys : list (option string)) (w : W) : W :=
  match keys with
  | [] => w
  | None :: keys' => set_overrides kwargs confirmed keys' w
  | Some key :: keys' =>
      match lookup key kwargs with
      | None => set_overrides kwargs confirmed keys' w
      | Some v =>
          set_overrides kwargs confirmed keys'
            (env_setitem rt key v confirmed w)
      end
  end.

(** [RenderContext.__getitem__] *)
Definition RenderContext_getitem (sanitizer : option nat)
  (key : option string) : M W obj :=
  value <- env_getitem rt key ;;
  if truthy value then ret (apply_sanitizer sanitizer key value)
  else raise ValueError.

(** What a call that unpacks a mapping into keyword arguments shows of an
    exception raised while the interpreter reads the mapping.  An
    [AttributeError] is reported as a [TypeError]; a [KeyError] is
    reported as it is or as a [TypeError], depending on the way it was raised
    and on the version of the interpreter: the model is silent about it.  Any
    other exception goes through. *)
Definition unpack_error (e : exn) : exn :=
  match e with
  | AttributeError => TypeError
  | KeyError => Unmodelled
  | _ => e
  end.

(** [**self]: the keys of [keys()] are read one by one through
    [__getitem__]. *)
Definition unpack (sanitizer : option nat) (keys : list (option string))
  : M W (list (option string * obj)) :=
  fun w =>
    match mapM (fun key =>
                  v <- RenderContext_getitem sanitizer key ;; ret (key, v))
               keys w with
    | (Raise e, w') => (Raise (unpack_error e), w')
    | r => r
    end.

(** The entries of the unpacked dictionary that a field name can reach. *)
Fixpoint keyword_args (kw : list (option string * obj)) : dict :=
  match kw with
  | [] => []
  | (Some k, v) :: kw' => (k, v) :: keyword_args kw'
  | (None, _) :: kw' => keyword_args kw'
  end.

Definition render_string (confirmed : bool) (sanitizer : option nat)
  (template : obj) (kwargs : dict) : M W obj :=
  match template with
  | PStr t =>
      let (items, stop) := parse t in
      match stop with
      | PValueError => raise ValueError
      | PUnmodelled => raise Unmodelled
      | PEnd =>
          let keys := iter_set (item_keys items) in
          fun w =>
            suppress_ValueError
              (kw <- unpack sanitizer keys ;;
               match format_items items (keyword_args kw) with
               | Ok s => ret (PStr s)
               | Raise e => raise e
               end)
              (set_overrides kwargs confirmed keys w)
      end
  | _ => raise TypeError
  end.

(** *** Calling a leaf: [value(environment)]

    [Requires.__call__] of the module [m], [MultipleValues.__call__], or an
    outside function. *)

Fixpoint call (m : module) (v : obj) {struct v} : M W obj :=
  match v with
  | PRequires template confirmed sanitizer kwargs =>
      match m with
      | utils => Requires_call template confirmed sanitizer kwargs
      | templates => render_string confirmed sanitizer template kwargs
      end
  | PMultiple values =>
      choices <- mapM (fun x => if callable x then call m x else ret x)
                      values ;;
      prompt rt choices
  | PFun id => fun_call rt id
  | _ => raise TypeError
  end.

(** One candidate of a conflict set, as [MultipleValues.__call__] offers
    it: [value(environment) if callable(value) else value]. *)
Definition candidate (m : module) (value : obj) : M W obj :=
  if callable value then call m value else ret value.

End Resolution.

(** ** [TemplateDict] *)

Section TemplateDict.

(** [custom id value]: the call of the wrap function [TCustom id]. *)
Variable custom : nat -> obj -> obj.

Definition apply_transform (t : transform) (value : obj) : obj :=
  match t with
  | TRequires => PRequires value false None []
  | TIdentity => value
  | TCustom id => custom id value
  end.

(** [TemplateDict._get_transform], the result given by its two components.
    [utils] has no second parameter; [templates] falls back on [Requires]
    when it is [None].  The assertion [callable(value[1])] holds of every
    [transform]. *)
Definition _get_transform (value : obj) (fallback : option transform)
  : obj * transform :=
  match value with
  | PTransform v t => (v, t)
  | _ => (value, match fallback with Some t => t | None => TRequires end)
  end.

(** [TemplateDict._get_value] *)
Definition _get_value (value : obj) (transform : transform) : obj :=
  match value with
  | PTransform v t => apply_transform t v
  | _ => if callable value then value else apply_transform transform value
  end.

(** [is_nonstring_sequence], with the elements of the sequence.  A
    [Transform] is a named tuple, hence a sequence of two elements. *)
Definition sequence_elements (value : obj) : option (list obj) :=
  match value with
  | PList l => Some l
  | PTransform v t => Some [v; obj_of_transform t]
  | _ => None
  end.

Definition is_nonstring_sequence (value : obj) : bool :=
  match sequence_elements value with
  | Some _ => true
  | None => false
  end.

(** [hash(v)] is defined: [Requires] and [MultipleValues] define [__eq__]
    without [__hash__], lists and dictionaries are mutable. *)
Fixpoint hashable (v : obj) : bool :=
  match v with
  | PNone | PBool _ | PStr _ | PFun _ => true
  | PTransform x _ => hashable x
  | PRequires _ _ _ _ | PMultiple _ | PList _ | PDict _ => false
  end.

(** [v in container] *)
Definition py_contains (container v : obj) : result bool :=
  match container with
  | PList l => Ok (py_in v l)
  | PTransform a t => Ok (py_in v [a; obj_of_transform t])
  | PStr s =>
      match v with
      | PStr t => Ok (substring_of t s)
      | _ => Raise TypeError
      end
  | PDict d =>
      if hashable v then
        match v with
        | PStr k => Ok (existsb (String.eqb k) (dict_keys d))
        | _ => Ok false
        end
      else Raise TypeError
  | _ => Raise TypeError
  end.

(** The loop [for v in value: if v not in config[key]: config[key].append(...)]
    on a list. *)
Fixpoint extend (transform : transform) (values stored : list obj)
  : list obj :=
  match values with
  | [] => stored
  | v :: values' =>
      extend transform values'
        (if py_in v stored then stored
         else (stored ++ [_get_value v transform])%list)
  end.

(** The same loop when [config[key]] is neither a list nor a mapping:
    nothing can be appended. *)
Fixpoint extend_other (slot : obj) (values : list obj) : result unit :=
  match values with
  | [] => Ok tt
  | v :: values' =>
      match py_contains slot v with
      | Ok true => extend_other slot values'
      | Ok false => Raise AttributeError
      | Raise e => Raise e
      end
  end.

(** The sequence branch at the last key, on the mapping [config]. *)
Definition store_sequence (values : list obj) (transform : transform)
  (key : string) : M dict unit :=
  fun config =>
    let config1 :=
      match lookup key config with
      | None => dict_set key (PList []) config
      | Some _ => config
      end in
    match lookup key config1 with
    | Some (PDict _) => (Raise AssertionError, config1)
    | Some (PList stored) =>
        (Ok tt, dict_set key (PList (extend transform values stored)) config1)
    | Some slot => (extend_other slot values, config1)
    | None => (Ok tt, config1)
    end.

(** The scalar branch at the last key. *)
Definition store_scalar (value : obj) (key : string) : M dict unit :=
  fun config =>
    match lookup key config with
    | Some stored =>
        if negb (py_eq stored value)
        then (Ok tt, dict_set key (MultipleValues_init value stored) config)
        else (Ok tt, config)
    | None => (Ok tt, dict_set key value config)
    end.

(** The walk along [keys[:-1]], creating the mappings that are missing, then
    [op] at [keys[-1]].  A value met on the way that is not a mapping makes
    the next membership test or subscript raise [TypeError]. *)
Fixpoint navigate (keys : list string) (op : string -> M dict unit)
  : M dict unit :=
  match keys with
  | [] => raise IndexError
  | key :: keys' =>
      match keys' with
      | [] => op key
      | _ :: _ =>
          fun config =>
            match lookup key config with
            | None =>
                let (r, sub) := navigate keys' op [] in
                (r, dict_set key (PDict sub) config)
            | Some (PDict sub) =>
                let (r, sub') := navigate keys' op sub in
                (r, dict_set key (PDict sub') config)
            | Some _ => (Raise TypeError, config)
            end
      end
  end.

(** The body of [__setitem__] once [value, transform] are unpacked.  The
    recursive call of [utils] wraps the entry as [Transform(v, transform)],
    that of [templates] as [_get_transform(v, transform)], which keeps an
    entry that is already a [Transform]. *)
Fixpoint assign (m : module) (value : obj) (transform : transform)
  (keys : list string) {struct value} : M dict unit :=
  match value with
  | PDict entries =>
      (fix each (es : dict) : M dict unit :=
         match es with
         | [] => ret tt
         | (k, v) :: es' =>
             _ <- match m, v with
                  | templates, PTransform v' t' =>
                      assign m v' t' (keys ++ [k])%list
                  | _, _ => assign m v transform (keys ++ [k])%list
                  end ;;
             each es'
         end) entries
  | _ =>
      match sequence_elements value with
      | Some values => navigate keys (store_sequence values transform)
      | None => navigate keys (store_scalar (_get_value value transform))
      end
  end.

(** [TemplateDict.__setitem__]: [self[keys] = value], on [self.data].  A
    single key is the one-element list. *)
Definition setitem (m : module) (keys : list string) (value : obj)
  : M dict unit :=
  let (v, t) := _get_transform value None in assign m v t keys.

(** [TemplateDict.__ior__]: [self |= other]; each entry is assigned at its
    key as [__setitem__] assigns the entries of a mapping at the empty key
    path. *)
Definition ior (m : module) (other : obj) : M dict unit :=
  let (v, t) := _get_transform other None in
  match v with
  | PDict _ => assign m v t []
  | _ => raise AssertionError
  end.

End TemplateDict.

(** ** [TemplateVisitor] *)

Section TemplateVisitor.

Context {W : Type} (rt : Runtime W) (m : module).

(** The last loop of [__call__]: the keys whose value is [None] are
    deleted. *)
Definition prune (template : dict) : dict :=
  filter (fun kv => negb (is_none (snd kv))) template.

(** One turn of the main loop of [__call__]: what [template[key]] holds
    after [value] has been visited. *)
Fixpoint visit_value (value : obj) {struct value} : M W obj :=
  if callable value then call rt m value
  else
    match value with
    | PDict entries =>
        entries' <- mapM (fun kv =>
                            let '(key, v) := kv in
                            v' <- visit_value v ;; ret (key, v'))
                         entries ;;
        match prune entries' with
        | [] => ret PNone
        | visited => ret (PDict visited)
        end
    | PList elements =>
        elements' <- mapM (fun element =>
                             if callable element then call rt m element
                             else
                               match element with
                               | PDict entries =>
                                   entries' <-
                                     mapM (fun kv =>
                                             let '(key, v) := kv in
                                             v' <- visit_value v ;;
                                             ret (key, v'))
                                          entries ;;
                                   ret (PDict (prune entries'))
                               | _ => ret element
                               end)
                          elements ;;
        if forallb is_none elements' then ret PNone
        else ret (PList elements')
    | _ => ret value
    end.

(** [TemplateVisitor.__call__]: the mapping left in [template]. *)
Definition visit (template : dict) : M W dict :=
  entries' <- mapM (fun kv =>
                      let '(key, v) := kv in
                      v' <- visit_value v ;; ret (key, v'))
                   template ;;
  ret (prune entries').

(** What the visitor does with one element of a list. *)
Definition visit_element (element : obj) : M W obj :=
  if callable element then call rt m element
  else
    match element with
    | PDict entries => d <- visit entries ;; ret (PDict d)
    | _ => ret element
    end.

End TemplateVisitor.

(** ** Observing the calls made to the environment

    [logged rt] behaves as [rt] and records every call it receives, in
    order. *)

Inductive event : Type :=
| EPush (name : string) (value : obj) (confirmed : bool)
| EPull (name : string)
| ESet (name : string) (value : obj) (confirmed : bool)
| EGet (key : option string)
| EPrompt (choices : list obj)
| ECall (id : nat).

Definition logged {W : Type} (rt : Runtime W) : Runtime (list event * W) :=
  {| push := fun k v c s =>
               ((fst s ++ [EPush k v c])%list, push rt k v c (snd s));
     pull := fun k s =>
               let (v, w') := pull rt k (snd s) in
               (v, ((fst s ++ [EPull k])%list, w'));
     env_getitem := fun k s =>
               let (r, w') := env_getitem rt k (snd s) in
               (r, ((fst s ++ [EGet k])%list, w'));
     env_setitem := fun k v c s =>
               ((fst s ++ [ESet k v c])%list, env_setitem rt k v c (snd s));
     prompt := fun choices s =>
               let (r, w') := prompt rt choices (snd s) in
               (r, ((fst s ++ [EPrompt choices])%list, w'));
     fun_call := fun id s =>
               let (r, w') := fun_call rt id (snd s) in
               (r, ((fst s ++ [ECall id])%list, w'));
     sanitize := sanitize rt;
     repr := repr rt;
     set_rank := set_rank rt |}.

(** The calls recorded while [m] runs from the state [w]. *)
Definition trace {W A : Type} (m : M (list event * W) A) (w : W)
  : list event :=
  fst (snd (m ([], w))).

(** ** An environment after the specification *)

Module SpecEnv.

(** Modelled from the spec: the Environment store
    ([incipyt.system.Environment], not in these modules), a mapping from a
    name to a raw value and a confirmed flag.  The key is optional because
    [templates.RenderContext] also reads the key [None]. *)
Definition Env : Type := list (option string * (obj * bool)).

Fixpoint find (k : option string) (e : Env) : option (obj * bool) :=
  match e with
  | [] => None
  | (k', x) :: e' => if key_eqb k k' then Some x else find k e'
  end.

Fixpoint store (k : option string) (x : obj * bool) (e : Env) : Env :=
  match e with
  | [] => [(k, x)]
  | (k', x') :: e' =>
      if key_eqb k k' then (k', x) :: e' else (k', x') :: store k x e'
  end.

(** Modelled from the spec: [pull(name)] returns the current raw value and
    creates an empty, unconfirmed entry when the name is unknown. *)
Definition read (k : option string) (e : Env) : obj * Env :=
  match find k e with
  | Some (v, _) => (v, e)
  | None => (PStr "", store k (PStr "", false) e)
  end.

(** Modelled from the spec: [push(name, value, confirmed)] sets the value
    only if the name is unset, or if [confirmed] upgrades an unconfirmed
    value. *)
Definition write (k : option string) (v : obj) (confirmed : bool) (e : Env)
  : Env :=
  match find k e with
  | None => store k (v, confirmed) e
  | Some (old, old_confirmed) =>
      if negb (truthy old) || (confirmed && negb old_confirmed)
      then store k (v, confirmed) e
      else e
  end.

(** Modelled from the spec: the Prompter, here the policy that always picks
    the first option offered. *)
Definition first_option (choices : list obj) (e : Env) : result obj * Env :=
  match choices with
  | c :: _ => (Ok c, e)
  | [] => (Raise ValueError, e)
  end.

(** Modelled from the spec: the runtime over this environment.  The
    specification names [push] and [pull] only; [data[key]] reads as [pull]
    does and [data[key] = EnvValue(value, confirmed)] writes as [push] does.
    Outside functions, for the examples: function 0 returns [None], any other
    returns a fixed string; the sanitizers leave the value as it is; a set is
    iterated in the order its elements came in. *)
Definition runtime : Runtime Env :=
  {| push := fun k => write (Some k);
     pull := fun k => read (Some k);
     env_getitem := fun k e => let (v, e') := read k e in (Ok v, e');
     env_setitem := fun k => write (Some k);
     prompt := first_option;
     fun_call := fun id e =>
                   (Ok (if Nat.eqb id 0 then PNone else PStr "made"), e);
     sanitize := fun _ _ v => v;
     repr := fun _ => "<object>";
     set_rank := fun _ _ => 0 |}.

(** The same runtime under an interpreter that iterates a set in the
    order of the list [order]. *)
Definition runtime_in_order (order : list (option string)) : Runtime Env :=
  {| push := push runtime;
     pull := pull runtime;
     env_getitem := env_getitem runtime;
     env_setitem := env_setitem runtime;
     prompt := prompt runtime;
     fun_call := fun_call runtime;
     sanitize := sanitize runtime;
     repr := repr runtime;
     set_rank := fun _ => index_of order |}.

Definition of_list (l : list (string * string)) : Env :=
  map (fun kv => (Some (fst kv), (PStr (snd kv), true))) l.

End SpecEnv.

(** A template expression as a caller writes it: [Requires(pattern)]. *)
Definition Requires (pattern : string) : obj :=
  PRequires (PStr pattern) false None [].

(** ** Notions used in the statements *)

(** What a key path holds in the nested structure. *)
Fixpoint get_path (keys : list string) (config : dict) : option obj :=
  match keys with
  | [] => None
  | key :: keys' =>
      match keys' with
      | [] => lookup key config
      | _ :: _ =>
          match lookup key config with
          | Some (PDict sub) => get_path keys' sub
          | _ => None
          end
      end
  end.

(** A value that [__setitem__] takes to its scalar branch: once a
    [Transform] is unpacked, neither a mapping nor a sequence. *)
Definition scalar (value : obj) : bool :=
  match fst (_get_transform value None) with
  | PDict _ | PList _ | PTransform _ _ => false
  | _ => true
  end.

(** [_get_value value transform] calls no function of the caller: the wrap
    function it applies, if any, is the class [Requires] or the default
    [lambda x: x], which always return.  The model takes every wrap function
    for one that returns; a function of the caller may raise instead. *)
Definition is_custom (t : transform) : bool :=
  match t with
  | TCustom _ => true
  | _ => false
  end.

Definition builtin_wrap (value : obj) (transform : transform) : bool :=
  match value with
  | PTransform _ t => negb (is_custom t)
  | _ => callable value || negb (is_custom transform)
  end.

(** The leaf that the scalar branch computes for [value]. *)
Definition leaf_of (custom : nat -> obj -> obj) (value : obj) : obj :=
  _get_value custom (fst (_get_transform value None))
             (snd (_get_transform value None)).

(** No conflict set, anywhere in [v], has a conflict set among its
    candidates. *)
Fixpoint flat (v : obj) : bool :=
  match v with
  | PMultiple values =>
      forallb (fun x => negb (is_multiple x) && flat x) values
  | PList l => forallb flat l
  | PDict d => forallb (fun kv => let '(_, x) := kv in flat x) d
  | _ => true
  end.

Definition flat_dict (d : dict) : bool := flat (PDict d).

(** A leaf that is not a conflict set and holds no nested one. *)
Definition plain (v : obj) : bool := negb (is_multiple v) && flat v.

Section AssignedLeaves.

Variable custom : nat -> obj -> obj.

(** Every leaf that assigning [value] under [transform] would store is
    [plain]; follows the cases of [assign]. *)
Fixpoint plain_leaves (m : module) (value : obj) (transform : transform)
  {struct value} : bool :=
  match value with
  | PDict entries =>
      forallb (fun kv =>
                 let '(_, v) := kv in
                 match m, v with
                 | templates, PTransform v' t' => plain_leaves m v' t'
                 | _, _ => plain_leaves m v transform
                 end) entries
  | _ =>
      match sequence_elements value with
      | Some values =>
          forallb (fun v => plain (_get_value custom v transform)) values
      | None => plain (_get_value custom value transform)
      end
  end.

Definition plain_value (m : module) (value : obj) : bool :=
  plain_leaves m (fst (_get_transform value None))
               (snd (_get_transform value None)).

(** The structure after a series of assignments [self[keys] = value], an
    assignment that raises leaving what it had written. *)
Fixpoint assign_all (m : module) (ops : list (list string * obj))
  (data : dict) : dict :=
  match ops with
  | [] => data
  | (keys, value) :: ops' =>
      assign_all m ops' (snd (setitem custom m keys value data))
  end.

(** Assigning [value] keeps the structure flat, whether the assignment
    returns or raises half-way. *)
Definition keeps_flat (value : obj) : Prop :=
  forall (m : module) (t : transform) (keys : list string) (data : dict),
    flat_dict data = true ->
    plain_leaves m value t = true ->
    flat_dict (snd (assign custom m value t keys data)) = true.

End AssignedLeaves.

(** The pattern with each field replaced by [f name], and the escapes
    undone. *)
Fixpoint substitute (f : string -> string) (items : list item) : string :=
  match items with
  | [] => ""
  | (text, None) :: items' => text ++ substitute f items'
  | (text, Some k) :: items' => text ++ f k ++ substitute f items'
  end.

(** The value a name resolved to. *)
Definition resolved (args : dict) (k : string) : obj :=
  match lookup k args with
  | Some v => v
  | None => PNone
  end.

(** A pattern without brace is one stretch of literal text. *)
Fixpoint no_braces (s : string) : bool :=
  match s with
  | EmptyString => true
  | String c s' =>
      negb (Ascii.eqb c "{"%char) && negb (Ascii.eqb c "}"%char)
      && no_braces s'
  end.

Definition plain_items (text : string) : list item :=
  match text with
  | EmptyString => []
  | _ => [(text, None)]
  end.

(** The [push] calls of the first loop of [utils.Requires.__call__]: one per
    occurrence of a field whose name has an override. *)
Fixpoint pushes_of (kwargs : dict) (confirmed : bool) (keys : list string)
  : list event :=
  match keys with
  | [] => []
  | k :: keys' =>
      match lookup k kwargs with
      | Some v => EPush k v confirmed :: pushes_of kwargs confirmed keys'
      | None => pushes_of kwargs confirmed keys'
      end
  end.

(** The writes of [templates.RenderContext.render_string]: one per key of
    [_keys] that has an override. *)
Fixpoint sets_of (kwargs : dict) (confirmed : bool)
  (keys : list (option string)) : list event :=
  match keys with
  | [] => []
  | None :: keys' => sets_of kwargs confirmed keys'
  | Some k :: keys' =>
      match lookup k kwargs with
      | Some v => ESet k v confirmed :: sets_of kwargs confirmed keys'
      | None => sets_of kwargs confirmed keys'
      end
  end.

(** ** Induction on objects

    The induction principle that goes through the lists and dictionaries
    inside an object. *)

Section ObjInduction.

Variable P : obj -> Prop.
Hypothesis HNone : P PNone.
Hypothesis HBool : forall b, P (PBool b).
Hypothesis HStr : forall s, P (PStr s).
Hypothesis HFun : forall id, P (PFun id).
Hypothesis HRequires :
  forall t c s kw, P t -> Forall (fun kv => P (snd kv)) kw ->
                   P (PRequires t c s kw).
Hypothesis HMultiple : forall l, Forall P l -> P (PMultiple l).
Hypothesis HTransform : forall v t, P v -> P (PTransform v t).
Hypothesis HList : forall l, Forall P l -> P (PList l).
Hypothesis HDict : forall d, Forall (fun kv => P (snd kv)) d -> P (PDict d).

Fixpoint obj_nested_ind (v : obj) : P v :=
  match v with
  | PNone => HNone
  | PBool b => HBool b
  | PStr s => HStr s
  | PFun id => HFun id
  | PRequires t c s kw =>
      HRequires t c s kw (obj_nested_ind t)
        ((fix go (d : dict) : Forall (fun kv => P (snd kv)) d :=
            match d with
            | [] => Forall_nil _
            | (k, x) :: d' => Forall_cons (k, x) (obj_nested_ind x) (go d')
            end) kw)
  | PMultiple l =>
      HMultiple l
        ((fix go (xs : list obj) : Forall P xs :=
            match xs with
            | [] => Forall_nil _
            | x :: xs' => Forall_cons x (obj_nested_ind x) (go xs')
            end) l)
  | PTransform x t => HTransform x t (obj_nested_ind x)
  | PList l =>
      HList l
        ((fix go (xs : list obj) : Forall P xs :=
            match xs with
            | [] => Forall_nil _
            | x :: xs' => Forall_cons x (obj_nested_ind x) (go xs')
            end) l)
  | PDict d =>
      HDict d
        ((fix go (e : dict) : Forall (fun kv => P (snd kv)) e :=
            match e with
            | [] => Forall_nil _
            | (k, x) :: e' => Forall_cons (k, x) (obj_nested_ind x) (go e')
            end) d)
  end.

End ObjInduction.

(** ** More of [TemplateDict] *)

Section TemplateDictLoops.

Variable custom : nat -> obj -> obj.

(** What the loops of [__setitem__] and [__ior__] assign for an entry [v]
    of a mapping under the wrap function [t]: [Transform(v, t)] in [utils],
    [_get_transform(v, t)] in [templates]. *)
Definition wrap_entry (m : module) (v : obj) (t : transform) : obj :=
  match m with
  | utils => PTransform v t
  | templates =>
      match v with
      | PTransform _ _ => v
      | _ => PTransform v t
      end
  end.

(** [for k, v in value.items(): self[keys + (k,)] = ...], the loop of
    [__setitem__] on a mapping, as the source writes it: through
    [__setitem__] itself. *)
Fixpoint assign_entries (m : module) (t : transform) (keys : list string)
  (entries : dict) : M dict unit :=
  match entries with
  | [] => ret tt
  | (k, v) :: entries' =>
      _ <- setitem custom m (keys ++ [k])%list (wrap_entry m v t) ;;
      assign_entries m t keys entries'
  end.

(** [self[k] = v] for each entry in turn, stopping at the first that
    raises. *)
Fixpoint assign_each (m : module) (entries : dict) : M dict unit :=
  match entries with
  | [] => ret tt
  | (k, v) :: entries' =>
      _ <- setitem custom m [k] v ;; assign_each m entries'
  end.

End TemplateDictLoops.

(** A value on the way along [keys[:-1]] is not a mapping. *)
Fixpoint blocked (keys : list string) (config : dict) : bool :=
  match keys with
  | [] => false
  | key :: keys' =>
      match keys' with
      | [] => false
      | _ :: _ =>
          match lookup key config with
          | None => false
          | Some (PDict sub) => blocked keys' sub
          | Some _ => true
          end
      end
  end.

(** The mapping that holds [v] at the key path [keys] and nothing else:
    [{k1: {k2: ... {kn: v}}}]. *)
Fixpoint nest (keys : list string) (v : obj) : dict :=
  match keys with
  | [] => []
  | key :: keys' =>
      match keys' with
      | [] => [(key, v)]
      | _ :: _ => [(key, PDict (nest keys' v))]
      end
  end.

Definition is_transform (v : obj) : bool :=
  match v with PTransform _ _ => true | _ => false end.



(** ** The visitor without callable *)

(** No position that the visitor looks at holds a callable: the values of
    the mappings, the elements of the lists that are values, and the values
    of the mappings that are elements of such lists. *)
Fixpoint inert (v : obj) : bool :=
  negb (callable v)
  && match v with
     | PDict entries => forallb (fun kv => let '(_, x) := kv in inert x) entries
     | PList elements =>
         forallb (fun e =>
                    negb (callable e)
                    && match e with
                       | PDict entries =>
                           forallb (fun kv => let '(_, x) := kv in inert x)
                                   entries
                       | _ => true
                       end)
                 elements
     | _ => true
     end.

Definition inert_dict (d : dict) : bool :=
  forallb (fun kv => let '(_, x) := kv in inert x) d.

(** What the visitor leaves of a value when nothing is called: the pruning
    alone, by the cases of [visit_value]. *)
Fixpoint settle_value (value : obj) : obj :=
  match value with
  | PDict entries =>
      match prune (map (fun kv => let '(k, v) := kv in (k, settle_value v))
                       entries) with
      | [] => PNone
      | visited => PDict visited
      end
  | PList elements =>
      let elements' :=
        map (fun e =>
               match e with
               | PDict entries =>
                   PDict (prune (map (fun kv =>
                                        let '(k, v) := kv in
                                        (k, settle_value v))
                                     entries))
               | _ => e
               end)
            elements in
      if forallb is_none elements' then PNone else PList elements'
  | _ => value
  end.

Definition settle (d : dict) : dict :=
  prune (map (fun kv => let '(k, v) := kv in (k, settle_value v)) d).


Definition is_instance (v : obj) : bool :=
  match v with
  | PRequires _ _ _ _ | PMultiple _ => true
  | _ => false
  end.


(** ** [PythonEnv] and patterns of one field *)

(** [PythonEnv.requires] ([templates]): [Requires(f"{{{self.variable}}}")],
    the variable between one pair of braces. *)
Definition PythonEnv_requires (variable : string) : obj :=
  Requires (String "{" (variable ++ "}")).

(** The default of [PythonEnv.variable]. *)
Definition PYTHON_CMD : string := "PYTHON_CMD".

(** No character that ends or splits a field name. *)
Fixpoint name_chars (s : string) : bool :=
  match s with
  | EmptyString => true
  | String c s' =>
      negb (Ascii.eqb c "}"%char) && negb (Ascii.eqb c "{"%char)
      && negb (Ascii.eqb c "["%char || Ascii.eqb c ":"%char
               || Ascii.eqb c "!"%char || Ascii.eqb c "."%char)
      && name_chars s'
  end.

(** A field name that is a keyword: such characters only, and one at
    least that [str.format] cannot take for a digit (see [all_digits]). *)
Definition plain_name (s : string) : bool :=
  name_chars s && negb (all_digits s).

(** The text with its braces doubled, as [str.format] wants a literal
    brace written. *)
Fixpoint escape (s : string) : string :=
  match s with
  | EmptyString => EmptyString
  | String c s' =>
      if Ascii.eqb c "{"%char || Ascii.eqb c "}"%char
      then String c (String c (escape s'))
      else String c (escape s')
  end.

(** ** Notions used in the further properties *)

(** What [visit_value] makes of an element of a list when nothing is
    called. *)
Definition settle_element (e : obj) : obj :=
  match e with
  | PDict entries => PDict (settle entries)
  | _ => e
  end.

(** The functions among the candidates of a conflict set, in order. *)
Fixpoint candidate_functions (values : list obj) : list nat :=
  match values with
  | [] => []
  | PFun id :: values' => id :: candidate_functions values'
  | _ :: values' => candidate_functions values'
  end.


Section VisitNotions.

Context {W : Type} (rt : Runtime W) (m : module).

(** The visit of [v] makes no call and returns [v] pruned. *)
Definition settles (v : obj) : Prop :=
  inert v = true -> forall w, visit_value rt m v w = (Ok (settle_value v), w).

(** Every outside function returns. *)
Definition functions_return : Prop :=
  forall id s, exists r s', fun_call rt id s = (Ok r, s').



End VisitNotions.

Section Related.

Variable custom : nat -> obj -> obj.
Variable R : dict -> dict -> Prop.
Variable Q : list string -> Prop.

(** The assignment of [value] at a key path in [Q] relates the structure
    before to the structure after by [R]. *)
Definition related (value : obj) : Prop :=
  forall (m : module) (t : transform) (keys : list string) (data : dict),
    Q keys -> R data (snd (assign custom m value t keys data)).

End Related.

(** * Properties *)

(** ** The model at work *)

Example parse_hello : parse "hello" = ([("hello", None)], PEnd).
Proof. reflexivity. Qed.

Example parse_two_fields :
  parse "{A}-{B}" = ([("", Some "A"); ("-", Some "B")], PEnd).
Proof. reflexivity. Qed.

Example parse_trailing_text :
  parse "{A}!" = ([("", Some "A"); ("!", None)], PEnd).
Proof. reflexivity. Qed.

Example parse_escapes :
  parse "a{{b}}c" = ([("a{", None); ("b}", None); ("c", None)], PEnd).
Proof. reflexivity. Qed.

Example parse_lazy_error : parse "{A}{B" = ([("", Some "A")], PValueError).
Proof. reflexivity. Qed.

Example parse_single_close : parse "{A}x}" = ([("", Some "A")], PValueError).
Proof. reflexivity. Qed.

(** A field name written with a decimal digit of Unicode outside ASCII
    (here the two bytes of U+0661): [str.format] takes it for a position;
    the model is silent. *)
Example parse_unicode_digit :
  parse (String "{" (String (ascii_of_nat 217)
                       (String (ascii_of_nat 161) "}")))
  = ([], PUnmodelled).
Proof. reflexivity. Qed.

Example resolve_two_fields :
  fst (call SpecEnv.runtime utils (Requires "{A}-{B}")
         (SpecEnv.of_list [("A", "x"); ("B", "y")]))
  = Ok (PStr "x-y").
Proof. reflexivity. Qed.

Example resolve_unset_field :
  fst (call SpecEnv.runtime utils (Requires "{A}-{B}")
         (SpecEnv.of_list [("A", "x")]))
  = Ok PNone.
Proof. reflexivity. Qed.

Example resolve_two_fields_templates :
  fst (call SpecEnv.runtime templates (Requires "{A}-{B}")
         (SpecEnv.of_list [("A", "x"); ("B", "y")]))
  = Ok (PStr "x-y").
Proof. reflexivity. Qed.

(** The same call under an interpreter that iterates the set of the two
    names the other way round: [B] is read first. *)
Example resolve_two_fields_in_set_order :
  trace (call (logged (SpecEnv.runtime_in_order [Some "B"; Some "A"]))
              templates (Requires "{A}-{B}"))
        (SpecEnv.of_list [("A", "x"); ("B", "y")])
  = [EGet (Some "B"); EGet (Some "A")]
  /\ fst (call (SpecEnv.runtime_in_order [Some "B"; Some "A"]) templates
             (Requires "{A}-{B}")
             (SpecEnv.of_list [("A", "x"); ("B", "y")]))
     = Ok (PStr "x-y").
Proof. split; reflexivity. Qed.

Example emptied_mapping_stays_in_list :
  fst (visit SpecEnv.runtime templates
         [("k", PList [PDict [("inner", Requires "{X}")]])] [])
  = Ok [("k", PList [PDict []])].
Proof. reflexivity. Qed.

(** ** Dictionaries *)

Lemma lookup_dict_set {A : Type} (k : string) (v : A)
  (d : list (string * A)) :
  lookup k (dict_set k v d) = Some v.
Proof.
  induction d as [| [k' v'] d IH]; simpl.
  - rewrite String.eqb_refl. reflexivity.
  - destruct (String.eqb k k') eqn:E; simpl; rewrite E; auto.
Qed.

Lemma dict_set_lookup {A : Type} (k : string) (v : A)
  (d : list (string * A)) :
  lookup k d = Some v -> dict_set k v d = d.
Proof.
  induction d as [| [k' v'] d IH]; simpl; [discriminate |].
  destruct (String.eqb k k') eqn:E.
  - intros H. inversion H. reflexivity.
  - intros H. rewrite (IH H). reflexivity.
Qed.

Lemma lookup_dict_set_other {A : Type} (k k' : string) (v : A)
  (d : list (string * A)) :
  String.eqb k' k = false -> lookup k' (dict_set k v d) = lookup k' d.
Proof.
  intros E. induction d as [| [k0 v0] d IH]; simpl.
  - rewrite E. reflexivity.
  - destruct (String.eqb k k0) eqn:E0; simpl.
    + apply String.eqb_eq in E0. subst k0. rewrite E. reflexivity.
    + destruct (String.eqb k' k0); [reflexivity | exact IH].
Qed.

Lemma lookup_dict_set_defined {A : Type} (k k' : string) (v : A)
  (d : list (string * A)) :
  lookup k' d <> None -> lookup k' (dict_set k v d) <> None.
Proof.
  intros H. destruct (String.eqb k' k) eqn:E.
  - apply String.eqb_eq in E. subst. rewrite lookup_dict_set. discriminate.
  - rewrite lookup_dict_set_other; assumption.
Qed.

(** ** The visitor *)

Section VisitorFacts.

Context {W : Type} (rt : Runtime W) (m : module).

Lemma visit_value_callable (v : obj) :
  callable v = true -> visit_value rt m v = call rt m v.
Proof. destruct v; simpl; intros H; try discriminate; reflexivity. Qed.

Lemma visit_value_dict (entries : dict) (w : W) :
  visit_value rt m (PDict entries) w
  = (d <- visit rt m entries ;;
     match d with [] => ret PNone | _ => ret (PDict d) end) w.
Proof.
  unfold visit. simpl. unfold bind, ret.
  destruct (mapM _ entries w) as [[entries' | e] w']; [| reflexivity].
  destruct (prune entries'); reflexivity.
Qed.

Lemma visit_value_list (elements : list obj) (w : W) :
  visit_value rt m (PList elements) w
  = (elements' <- mapM (visit_element rt m) elements ;;
     if forallb is_none elements' then ret PNone
     else ret (PList elements')) w.
Proof.
  simpl. unfold bind.
  assert (E : forall l s,
             mapM (fun element =>
                     if callable element then call rt m element
                     else
                       match element with
                       | PDict entries =>
                           entries' <-
                             mapM (fun kv =>
                                     let '(key, v) := kv in
                                     v' <- visit_value rt m v ;;
                                     ret (key, v'))
                                  entries ;;
                           ret (PDict (prune entries'))
                       | _ => ret element
                       end) l s
             = mapM (visit_element rt m) l s).
  { induction l as [| x l IH]; intros s; [reflexivity |].
    simpl. unfold bind.
    assert (X : (if callable x then call rt m x
                 else
                   match x with
                   | PDict entries =>
                       entries' <-
                         mapM (fun kv =>
                                 let '(key, v) := kv in
                                 v' <- visit_value rt m v ;;
                                 ret (key, v'))
                              entries ;;
                       ret (PDict (prune entries'))
                   | _ => ret x
                   end) s = visit_element rt m x s).
    { unfold visit_element. destruct (callable x); [reflexivity |].
      destruct x; try reflexivity.
      unfold visit, bind, ret.
      destruct (mapM _ entries s) as [[entries' | e] s']; reflexivity. }
    unfold bind in X. rewrite X.
    destruct (visit_element rt m x s) as [[y | e] s']; [| reflexivity].
    rewrite IH. reflexivity. }
  rewrite E. reflexivity.
Qed.

Lemma visit_singleton (key : string) (v : obj) (w : W) :
  visit rt m [(key, v)] w
  = match visit_value rt m v w with
    | (Ok v', w') => (Ok (prune [(key, v')]), w')
    | (Raise e, w') => (Raise e, w')
    end.
Proof.
  unfold visit, mapM, bind, ret.
  destruct (visit_value rt m v w) as [[v' | e] w']; reflexivity.
Qed.

Lemma mapM_length {A B : Type} (f : A -> M W B) (l : list A) :
  forall (w w' : W) (l' : list B),
    mapM f l w = (Ok l', w') -> List.length l' = List.length l.
Proof.
  induction l as [| x l IH]; simpl; intros w w' l' H.
  - inversion H. reflexivity.
  - unfold bind in H. destruct (f x w) as [[y | e] w1]; [| discriminate].
    destruct (mapM f l w1) as [[ys | e] w2] eqn:E; [| discriminate].
    inversion H; subst. simpl. f_equal. eapply IH; eassumption.
Qed.

(** C3.  A tree [{outer: {inner: e}}] whose leaf [e] resolves to [None] is
    left empty by one visit: [inner] is deleted, the mapping under [outer]
    is then empty and replaced by [None], and [outer] is deleted at the end
    of the same call. *)
Theorem C3_pruning_is_transitive (outer inner : string) (e : obj) (w w' : W) :
  callable e = true ->
  call rt m e w = (Ok PNone, w') ->
  visit rt m [(inner, e)] w = (Ok [], w')
  /\ visit_value rt m (PDict [(inner, e)]) w = (Ok PNone, w')
  /\ visit rt m [(outer, PDict [(inner, e)])] w = (Ok [], w').
Proof.
  intros Hc He.
  assert (Hin : visit rt m [(inner, e)] w = (Ok [], w')).
  { rewrite visit_singleton, (visit_value_callable e Hc), He. reflexivity. }
  assert (Hmid : visit_value rt m (PDict [(inner, e)]) w = (Ok PNone, w')).
  { rewrite visit_value_dict. unfold bind. rewrite Hin. reflexivity. }
  repeat split; try assumption.
  rewrite visit_singleton, Hmid. reflexivity.
Qed.

(** C9.  A list is replaced by [None], and its key deleted, exactly when
    every element is [None] once processed; a list that stays keeps every
    processed element, the [None] ones included, at its place. *)
Theorem C9_sequence_pruned_as_a_whole (key : string) (elements : list obj)
  (w w' : W) (elements' : list obj) :
  mapM (visit_element rt m) elements w = (Ok elements', w') ->
  visit_value rt m (PList elements) w
  = (Ok (if forallb is_none elements' then PNone else PList elements'), w')
  /\ (Forall (fun x => x = PNone) elements' ->
      visit rt m [(key, PList elements)] w = (Ok [], w'))
  /\ (~ Forall (fun x => x = PNone) elements' ->
      visit rt m [(key, PList elements)] w
      = (Ok [(key, PList elements')], w'))
  /\ List.length elements' = List.length elements.
Proof.
  intros H.
  assert (Hv : visit_value rt m (PList elements) w
               = (Ok (if forallb is_none elements' then PNone
                      else PList elements'), w')).
  { rewrite visit_value_list. unfold bind. rewrite H.
    destruct (forallb is_none elements'); reflexivity. }
  assert (Hall : forallb is_none elements' = true
                 <-> Forall (fun x => x = PNone) elements').
  { rewrite forallb_forall, Forall_forall. split; intros A x Hx.
    - specialize (A x Hx). destruct x; try discriminate. reflexivity.
    - rewrite (A x Hx). reflexivity. }
  split; [exact Hv |]. split; [| split].
  - intros Hf. apply Hall in Hf.
    rewrite visit_singleton, Hv, Hf. reflexivity.
  - intros Hf.
    destruct (forallb is_none elements') eqn:E.
    + exfalso. apply Hf, Hall. reflexivity.
    + rewrite visit_singleton, Hv. reflexivity.
  - eapply mapM_length. eassumption.
Qed.

End VisitorFacts.

Lemma C3_pruning_is_transitive_witness :
  callable (Requires "{X}") = true
  /\ visit SpecEnv.runtime templates
       [("outer", PDict [("inner", Requires "{X}")])] []
     = (Ok [], [(Some "X", (PStr "", false))]).
Proof.
  split; [reflexivity |].
  apply (proj2 (proj2
           (C3_pruning_is_transitive SpecEnv.runtime templates
              "outer" "inner" (Requires "{X}") []
              [(Some "X", (PStr "", false))] eq_refl eq_refl))).
Defined.

Lemma C9_sequence_pruned_as_a_whole_witness :
  visit SpecEnv.runtime templates
    [("k", PList [Requires "{X}"; Requires "{A}"])]
    (SpecEnv.of_list [("A", "x")])
  = (Ok [("k", PList [PNone; PStr "x"])],
     [(Some "A", (PStr "x", true)); (Some "X", (PStr "", false))]).
Proof.
  destruct (C9_sequence_pruned_as_a_whole SpecEnv.runtime templates "k"
              [Requires "{X}"; Requires "{A}"]
              (SpecEnv.of_list [("A", "x")])
              [(Some "A", (PStr "x", true)); (Some "X", (PStr "", false))]
              [PNone; PStr "x"] eq_refl) as (_ & _ & Hmix & _).
  apply Hmix. intros H. inversion H; subst. inversion H3; subst. discriminate.
Defined.

(** ** The builder *)

Lemma navigate_cons (op : string -> M dict unit) (key key' : string)
  (keys : list string) (config : dict) :
  navigate (key :: key' :: keys) op config
  = match lookup key config with
    | None =>
        let (r, sub) := navigate (key' :: keys) op [] in
        (r, dict_set key (PDict sub) config)
    | Some (PDict sub) =>
        let (r, sub') := navigate (key' :: keys) op sub in
        (r, dict_set key (PDict sub') config)
    | Some _ => (Raise TypeError, config)
    end.
Proof. reflexivity. Qed.

Section BuilderFacts.

Variable custom : nat -> obj -> obj.

Lemma setitem_scalar (m : module) (keys : list string) (value : obj) :
  scalar value = true ->
  setitem custom m keys value
  = navigate keys (store_scalar (leaf_of custom value)).
Proof.
  unfold scalar, leaf_of, setitem.
  destruct (_get_transform value None) as [v t]; simpl.
  destruct v; intros H; try discriminate; reflexivity.
Qed.

Lemma navigate_equal (v : obj) (keys : list string) :
  forall (data : dict) (stored : obj),
    get_path keys data = Some stored ->
    py_eq stored v = true ->
    navigate keys (store_scalar v) data = (Ok tt, data).
Proof.
  induction keys as [| key keys IH]; intros data stored Hp He;
    [discriminate |].
  destruct keys as [| key' keys].
  - simpl in *. unfold store_scalar. rewrite Hp, He. reflexivity.
  - cbn [navigate get_path] in *.
    destruct (lookup key data) as [[] |] eqn:L; try discriminate.
    rewrite (IH _ _ Hp He), (dict_set_lookup _ _ _ L). reflexivity.
Qed.

Lemma navigate_conflict (v : obj) (keys : list string) :
  forall (data : dict) (stored : obj),
    get_path keys data = Some stored ->
    py_eq stored v = false ->
    exists data',
      navigate keys (store_scalar v) data = (Ok tt, data')
      /\ get_path keys data' = Some (MultipleValues_init v stored).
Proof.
  induction keys as [| key keys IH]; intros data stored Hp He;
    [discriminate |].
  destruct keys as [| key' keys].
  - simpl in *. unfold store_scalar. rewrite Hp, He. simpl.
    eexists. split; [reflexivity |]. apply lookup_dict_set.
  - cbn [navigate get_path] in *.
    destruct (lookup key data) as [[] |] eqn:L; try discriminate.
    destruct (IH _ _ Hp He) as (sub' & Hn & Hg).
    rewrite Hn. eexists. split; [reflexivity |].
    rewrite lookup_dict_set. exact Hg.
Qed.

(** C10.  Assigning an empty mapping, bare or wrapped in a [Transform],
    changes nothing: whatever the key path, nothing is stored and no mapping
    is created on the way. *)
Theorem C10_empty_mapping_is_noop (m : module) (keys : list string)
  (t : transform) (data : dict) :
  setitem custom m keys (PDict []) data = (Ok tt, data)
  /\ setitem custom m keys (PTransform (PDict []) t) data = (Ok tt, data).
Proof. split; reflexivity. Qed.

(** C8.  Assigning at a key path a scalar whose leaf is equal to the value
    stored there leaves the whole structure as it was: the leaf is kept and
    no conflict set is made. *)
Theorem C8_equal_scalar_is_idempotent (m : module) (keys : list string)
  (value stored : obj) (data : dict) :
  scalar value = true ->
  get_path keys data = Some stored ->
  py_eq stored (leaf_of custom value) = true ->
  setitem custom m keys value data = (Ok tt, data).
Proof.
  intros Hs Hp He. rewrite (setitem_scalar m keys value Hs).
  eapply navigate_equal; eassumption.
Qed.

Lemma get_path_empty (keys : list string) : get_path keys [] = None.
Proof. destruct keys as [| k [| k' keys]]; reflexivity. Qed.

Lemma navigate_fresh (v : obj) (keys : list string) :
  forall (data data' : dict),
    get_path keys data = None ->
    navigate keys (store_scalar v) data = (Ok tt, data') ->
    get_path keys data' = Some v.
Proof.
  induction keys as [| key keys IH]; intros data data' Hp Hn;
    [discriminate |].
  destruct keys as [| key' keys].
  - simpl in *. unfold store_scalar in Hn. rewrite Hp in Hn.
    inversion Hn. apply lookup_dict_set.
  - rewrite navigate_cons in Hn. cbn [get_path] in Hp |- *.
    destruct (lookup key data) as [slot |] eqn:L.
    + destruct slot; try discriminate.
      destruct (navigate (key' :: keys) (store_scalar v) entries)
        as [r sub'] eqn:E.
      inversion Hn; subst. rewrite lookup_dict_set.
      eapply IH; eassumption.
    + destruct (navigate (key' :: keys) (store_scalar v) [])
        as [r sub'] eqn:E.
      inversion Hn; subst. rewrite lookup_dict_set.
      eapply IH; [apply get_path_empty | eassumption].
Qed.

Lemma Requires_eq (a b : string) :
  py_eq (Requires a) (Requires b) = String.eqb a b.
Proof. unfold Requires. simpl. destruct (String.eqb a b); reflexivity. Qed.

(** A string assigned twice at a path that was free: the second assignment
    changes nothing. *)
Lemma same_string_twice (m : module) (keys : list string) (s : string)
  (data data' : dict) :
  get_path keys data = None ->
  setitem custom m keys (PStr s) data = (Ok tt, data') ->
  setitem custom m keys (PStr s) data' = (Ok tt, data').
Proof.
  intros Hp H1.
  rewrite setitem_scalar in H1 |- * by reflexivity.
  change (leaf_of custom (PStr s)) with (Requires s) in *.
  apply (navigate_equal (Requires s) keys data' (Requires s)).
  - exact (navigate_fresh _ _ _ _ Hp H1).
  - rewrite Requires_eq. apply String.eqb_refl.
Qed.

(** Two different strings assigned in turn at a path that was free: the
    slot holds the conflict set of the second, then the first. *)
Lemma two_strings_in_turn (m : module) (keys : list string) (a b : string)
  (data data1 : dict) :
  a <> b ->
  get_path keys data = None ->
  setitem custom m keys (PStr a) data = (Ok tt, data1) ->
  exists data2,
    setitem custom m keys (PStr b) data1 = (Ok tt, data2)
    /\ get_path keys data2 = Some (PMultiple [Requires b; Requires a]).
Proof.
  intros Hab Hp H1.
  rewrite setitem_scalar in H1 by reflexivity.
  pose proof (navigate_fresh _ _ _ _ Hp H1) as Hg.
  rewrite setitem_scalar by reflexivity.
  destruct (navigate_conflict (leaf_of custom (PStr b)) keys data1
              (Requires a) Hg) as (data2 & Hn & Hg2).
  - change (leaf_of custom (PStr b)) with (Requires b).
    rewrite Requires_eq. apply String.eqb_neq. exact Hab.
  - exists data2. split; assumption.
Qed.

End BuilderFacts.

Lemma C8_equal_scalar_is_idempotent_witness :
  setitem (fun _ v => v) utils ["project"; "name"] (PStr "{NAME}")
    [("project", PDict [("name", Requires "{NAME}")])]
  = (Ok tt, [("project", PDict [("name", Requires "{NAME}")])]).
Proof.
  apply (C8_equal_scalar_is_idempotent (fun _ v => v) utils
           ["project"; "name"] (PStr "{NAME}") (Requires "{NAME}")
           [("project", PDict [("name", Requires "{NAME}")])]);
    reflexivity.
Defined.

Section ConflictFacts.

Context {W : Type} (rt : Runtime W) (m : module).
Variable custom : nat -> obj -> obj.

Lemma call_multiple (values : list obj) (w : W) :
  call rt m (PMultiple values) w
  = (choices <- mapM (candidate rt m) values ;; prompt rt choices) w.
Proof. reflexivity. Qed.

(** C2.  A scalar assigned at a path that holds a different value (not yet
    a conflict set) turns the slot into the conflict set of the new leaf
    first and the stored value second; when the prompter returns the first
    option it is offered, resolving that conflict set gives what the new
    leaf resolves to. *)
Theorem C2_conflict_set_newest_first (keys : list string)
  (value stored : obj) (data : dict) (w w1 w2 : W) (r1 r2 : obj) :
  scalar value = true ->
  get_path keys data = Some stored ->
  is_multiple stored = false ->
  py_eq stored (leaf_of custom value) = false ->
  (forall c choices s, fst (prompt rt (c :: choices) s) = Ok c) ->
  candidate rt m (leaf_of custom value) w = (Ok r1, w1) ->
  candidate rt m stored w1 = (Ok r2, w2) ->
  exists data',
    setitem custom m keys value data = (Ok tt, data')
    /\ get_path keys data'
       = Some (PMultiple [leaf_of custom value; stored])
    /\ fst (call rt m (PMultiple [leaf_of custom value; stored]) w) = Ok r1.
Proof.
  intros Hs Hp Hm He Hfirst H1 H2.
  rewrite (setitem_scalar custom m keys value Hs).
  destruct (navigate_conflict (leaf_of custom value) keys data stored Hp He)
    as (data' & Hn & Hg).
  exists data'. split; [exact Hn |]. split.
  - rewrite Hg. destruct stored; try reflexivity. discriminate.
  - rewrite call_multiple. unfold bind. cbn [mapM]. unfold bind.
    rewrite H1, H2. cbn. apply Hfirst.
Qed.

End ConflictFacts.

Lemma C2_conflict_set_newest_first_witness :
  exists data',
    setitem (fun _ v => v) utils ["project"; "name"] (PStr "{OTHER_NAME}")
      [("project", PDict [("name", Requires "{PROJECT_NAME}")])]
    = (Ok tt, data')
    /\ get_path ["project"; "name"] data'
       = Some (PMultiple [Requires "{OTHER_NAME}"; Requires "{PROJECT_NAME}"])
    /\ fst (call SpecEnv.runtime utils
              (PMultiple [Requires "{OTHER_NAME}"; Requires "{PROJECT_NAME}"])
              (SpecEnv.of_list
                 [("PROJECT_NAME", "demo"); ("OTHER_NAME", "demo2")]))
       = Ok (PStr "demo2").
Proof.
  apply (C2_conflict_set_newest_first SpecEnv.runtime utils (fun _ v => v)
           ["project"; "name"] (PStr "{OTHER_NAME}")
           (Requires "{PROJECT_NAME}")
           [("project", PDict [("name", Requires "{PROJECT_NAME}")])]
           (SpecEnv.of_list [("PROJECT_NAME", "demo"); ("OTHER_NAME", "demo2")])
           (SpecEnv.of_list [("PROJECT_NAME", "demo"); ("OTHER_NAME", "demo2")])
           (SpecEnv.of_list [("PROJECT_NAME", "demo"); ("OTHER_NAME", "demo2")])
           (PStr "demo2") (PStr "demo"));
    reflexivity.
Defined.

(** ** De-duplication of sequences *)

Lemma extend_present (custom : nat -> obj -> obj) (t : transform)
  (values stored : list obj) :
  (forall v, In v values -> py_in v stored = true) ->
  extend custom t values stored = stored.
Proof.
  induction values as [| v values IH]; simpl; intros H; [reflexivity |].
  rewrite (H v (or_introl eq_refl)). apply IH.
  intros x Hx. apply H. right. exact Hx.
Qed.

(** C5, at the input where it fails.  The membership test of the sequence
    branch compares the element as it was passed with the leaves that were
    stored; a string is stored as [Requires(string)], which is not equal to
    the string, so the same list assigned twice is stored twice. *)
Theorem C5_same_list_assigned_twice (custom : nat -> obj -> obj)
  (m : module) (s : string) :
  setitem custom m ["k"] (PList [PStr s]) []
  = (Ok tt, [("k", PList [Requires s])])
  /\ setitem custom m ["k"] (PList [PStr s]) [("k", PList [Requires s])]
     = (Ok tt, [("k", PList [Requires s; Requires s])])
  /\ py_eq (Requires s) (Requires s) = true.
Proof.
  repeat split.
  unfold Requires. simpl. rewrite String.eqb_refl. reflexivity.
Qed.

(** ** Conflict sets do not nest through their tail *)

Section FlatFacts.

Variable custom : nat -> obj -> obj.

Lemma flat_dict_cons (k : string) (v : obj) (d : dict) :
  flat_dict ((k, v) :: d) = flat v && flat_dict d.
Proof. reflexivity. Qed.

Lemma flat_dict_set (k : string) (v : obj) (d : dict) :
  flat_dict d = true -> flat v = true -> flat_dict (dict_set k v d) = true.
Proof.
  intros Hd Hv. induction d as [| [k' v'] d IH].
  - simpl. unfold flat_dict. simpl. rewrite Hv. reflexivity.
  - rewrite flat_dict_cons in Hd. apply andb_prop in Hd as [H1 H2].
    simpl. destruct (String.eqb k k'); rewrite flat_dict_cons.
    + rewrite Hv, H2. reflexivity.
    + rewrite H1, (IH H2). reflexivity.
Qed.

Lemma flat_lookup (k : string) (v : obj) (d : dict) :
  flat_dict d = true -> lookup k d = Some v -> flat v = true.
Proof.
  induction d as [| [k' v'] d IH]; simpl; [discriminate |].
  rewrite flat_dict_cons. intros Hd. apply andb_prop in Hd as [H1 H2].
  destruct (String.eqb k k').
  - intros H. inversion H; subst. exact H1.
  - apply IH. exact H2.
Qed.

Lemma flat_init (head tail : obj) :
  plain head = true -> flat tail = true ->
  flat (MultipleValues_init head tail) = true.
Proof.
  unfold plain. intros Hh Ht.
  destruct tail; simpl in *; rewrite ?Hh, ?Ht; reflexivity.
Qed.

Lemma store_scalar_flat (v : obj) (key : string) (config : dict) :
  plain v = true -> flat_dict config = true ->
  flat_dict (snd (store_scalar v key config)) = true.
Proof.
  intros Hv Hc. unfold store_scalar.
  assert (Hf : flat v = true) by (apply andb_prop in Hv; tauto).
  destruct (lookup key config) as [stored |] eqn:L.
  - destruct (negb (py_eq stored v)); simpl; [| exact Hc].
    apply flat_dict_set; [exact Hc |].
    apply flat_init; [exact Hv |]. eapply flat_lookup; eassumption.
  - simpl. apply flat_dict_set; assumption.
Qed.

Lemma extend_flat (t : transform) (values : list obj) :
  forall stored,
    forallb (fun v => plain (_get_value custom v t)) values = true ->
    forallb flat stored = true ->
    forallb flat (extend custom t values stored) = true.
Proof.
  induction values as [| v values IH]; simpl; intros stored Hv Hs;
    [exact Hs |].
  apply andb_prop in Hv as [H1 H2].
  apply IH; [exact H2 |].
  destruct (py_in v stored); [exact Hs |].
  rewrite forallb_app, Hs. simpl.
  apply andb_prop in H1 as [_ H1]. rewrite H1. reflexivity.
Qed.

Lemma store_sequence_flat (t : transform) (values : list obj) (key : string)
  (config : dict) :
  forallb (fun v => plain (_get_value custom v t)) values = true ->
  flat_dict config = true ->
  flat_dict (snd (store_sequence custom values t key config)) = true.
Proof.
  intros Hv Hc. unfold store_sequence.
  set (config1 := match lookup key config with
                  | None => dict_set key (PList []) config
                  | Some _ => config
                  end).
  assert (H1 : flat_dict config1 = true).
  { subst config1. destruct (lookup key config); [exact Hc |].
    apply flat_dict_set; [exact Hc | reflexivity]. }
  destruct (lookup key config1) as [slot |] eqn:L; [| exact H1].
  destruct slot; simpl; try exact H1.
  apply flat_dict_set; [exact H1 |].
  simpl. apply extend_flat; [exact Hv |].
  exact (flat_lookup _ _ _ H1 L).
Qed.

Lemma navigate_flat (op : string -> M dict unit) :
  (forall key config,
      flat_dict config = true -> flat_dict (snd (op key config)) = true) ->
  forall keys data,
    flat_dict data = true -> flat_dict (snd (navigate keys op data)) = true.
Proof.
  intros Hop. induction keys as [| key keys IH]; intros data Hd;
    [exact Hd |].
  destruct keys as [| key' keys]; [apply Hop; exact Hd |].
  rewrite navigate_cons.
  destruct (lookup key data) as [slot |] eqn:L.
  - destruct slot; try exact Hd.
    specialize (IH entries (flat_lookup _ _ _ Hd L)).
    destruct (navigate (key' :: keys) op entries) as [r sub]. simpl in *.
    apply flat_dict_set; assumption.
  - specialize (IH [] eq_refl).
    destruct (navigate (key' :: keys) op []) as [r sub]. simpl in *.
    apply flat_dict_set; assumption.
Qed.

Lemma keeps_flat_leaf (value : obj) :
  match value with PDict _ => False | _ => True end -> keeps_flat custom value.
Proof.
  intros Hv m t keys data Hd Hl.
  destruct value; try contradiction; simpl in Hl; simpl assign;
    (apply navigate_flat; [| exact Hd]); intros key config Hc;
    first [ apply store_scalar_flat; assumption
          | apply store_sequence_flat; assumption ].
Qed.

Lemma keeps_flat_dict (d : dict) :
  Forall (fun kv =>
            keeps_flat custom (snd kv)
            /\ forall v' t',
                 snd kv = PTransform v' t' -> keeps_flat custom v') d ->
  keeps_flat custom (PDict d).
Proof.
  intros IH m t keys. simpl.
  induction d as [| [k v] d IHd]; intros data Hd Hl; [exact Hd |].
  inversion IH as [| ? ? [Hv Hsub] Hrest]; subst. simpl in Hv, Hsub.
  simpl in Hl. apply andb_prop in Hl as [Hl1 Hl2].
  unfold bind at 1.
  assert (Hstep :
            flat_dict
              (snd (match m, v with
                    | templates, PTransform v' t' =>
                        assign custom m v' t' (keys ++ [k])%list
                    | _, _ => assign custom m v t (keys ++ [k])%list
                    end data)) = true).
  { destruct m; [apply Hv; assumption |].
    destruct v; try (apply Hv; assumption).
    apply (Hsub v tr eq_refl); assumption. }
  destruct (match m, v with
            | templates, PTransform v' t' =>
                assign custom m v' t' (keys ++ [k])%list
            | _, _ => assign custom m v t (keys ++ [k])%list
            end data) as [[[] | e] data1]; simpl in Hstep.
  - apply IHd; assumption.
  - exact Hstep.
Qed.

Lemma assign_flat_strong (value : obj) :
  keeps_flat custom value
  /\ forall v' t', value = PTransform v' t' -> keeps_flat custom v'.
Proof.
  induction value as [| b | s | id | tpl c sn kw _ _ | l _ | v tr IHv | l _
                      | d IH] using obj_nested_ind;
    try (split; [apply keeps_flat_leaf; exact I | discriminate]).
  - split; [apply keeps_flat_leaf; exact I |].
    intros v' t' E. inversion E; subst. apply IHv.
  - split; [apply keeps_flat_dict; exact IH | discriminate].
Qed.

Lemma assign_flat (value : obj) : keeps_flat custom value.
Proof. apply assign_flat_strong. Qed.

Lemma setitem_flat (m : module) (keys : list string) (value : obj)
  (data : dict) :
  flat_dict data = true ->
  plain_value custom m value = true ->
  flat_dict (snd (setitem custom m keys value data)) = true.
Proof.
  unfold plain_value, setitem. intros Hd Hl.
  destruct (_get_transform value None) as [v t].
  apply assign_flat; assumption.
Qed.

Lemma ior_flat (m : module) (other : obj) (data : dict) :
  flat_dict data = true ->
  plain_value custom m other = true ->
  flat_dict (snd (ior custom m other data)) = true.
Proof.
  unfold plain_value, ior. intros Hd Hl.
  destruct (_get_transform other None) as [v t].
  destruct v; try exact Hd. apply assign_flat; assumption.
Qed.

Lemma assign_all_flat (m : module) (ops : list (list string * obj)) :
  forall data,
    flat_dict data = true ->
    Forall (fun op => plain_value custom m (snd op) = true) ops ->
    flat_dict (assign_all custom m ops data) = true.
Proof.
  induction ops as [| [keys value] ops IH]; intros data Hd Hops;
    [exact Hd |].
  inversion Hops as [| ? ? Hv Hrest]; subst. simpl in Hv |- *.
  apply IH; [| exact Hrest]. apply setitem_flat; assumption.
Qed.

(** C4, as the code has it.  [MultipleValues(head, tail)] with a conflict
    set for [tail] prepends [head] to the candidates of [tail], one list,
    which is flat when [head] is not a conflict set; and as long as no leaf
    being assigned is or holds a conflict set, no series of assignments from
    the empty structure makes a conflict set with a conflict set among its
    candidates, anywhere. *)
Theorem C4_conflict_sets_flatten_their_tail (m : module)
  (ops : list (list string * obj)) (head : obj) (values : list obj) :
  Forall (fun op => plain_value custom m (snd op) = true) ops ->
  MultipleValues_init head (PMultiple values) = PMultiple (head :: values)
  /\ (plain head = true -> flat (PMultiple values) = true ->
      flat (MultipleValues_init head (PMultiple values)) = true)
  /\ flat_dict (assign_all custom m ops []) = true.
Proof.
  intros Hops. split; [reflexivity |].
  split; [apply flat_init |].
  apply assign_all_flat; [reflexivity | exact Hops].
Qed.

End FlatFacts.

(** C4, as stated, fails: only the tail is flattened.  A conflict set given
    as [head] becomes one candidate of the new conflict set, and assigning a
    conflict set at a populated key stores such a nested one. *)
Lemma C4_head_is_not_flattened :
  MultipleValues_init (PMultiple [PStr "a"; PStr "b"])
                      (PMultiple [PStr "c"; PStr "d"])
  = PMultiple [PMultiple [PStr "a"; PStr "b"]; PStr "c"; PStr "d"]
  /\ flat (MultipleValues_init (PMultiple [PStr "a"; PStr "b"])
                               (PMultiple [PStr "c"; PStr "d"])) = false
  /\ assign_all (fun _ v => v) utils
       [(["k"], PStr "{C}");
        (["k"], PMultiple [Requires "{A}"; Requires "{B}"])] []
     = [("k", PMultiple [PMultiple [Requires "{A}"; Requires "{B}"];
                         Requires "{C}"])].
Proof. repeat split. Qed.

Lemma C4_conflict_sets_flatten_their_tail_witness :
  flat_dict
    (assign_all (fun _ v => v) utils
       [(["k"], PStr "{A}"); (["k"], PStr "{B}"); (["k"], PStr "{C}")] [])
  = true
  /\ assign_all (fun _ v => v) utils
       [(["k"], PStr "{A}"); (["k"], PStr "{B}"); (["k"], PStr "{C}")] []
     = [("k", PMultiple [Requires "{C}"; Requires "{B}"; Requires "{A}"])].
Proof.
  split; [| reflexivity].
  apply (C4_conflict_sets_flatten_their_tail (fun _ v => v) utils
           [(["k"], PStr "{A}"); (["k"], PStr "{B}"); (["k"], PStr "{C}")]
           PNone []).
  repeat constructor.
Defined.

(** ** Resolution of a template expression *)

Section ResolutionFacts.

Context {W : Type} (rt : Runtime W).

Lemma pull_args_defined (sanitizer : option nat) (keys : list string) :
  forall (args : dict) (w : W) (k : string),
    In k keys \/ lookup k args <> None ->
    lookup k (fst (pull_args rt sanitizer keys args w)) <> None.
Proof.
  induction keys as [| key keys IH]; intros args w k H; simpl.
  - destruct H as [[] | H]. exact H.
  - destruct (pull rt key w) as [v w']. apply IH.
    destruct H as [[E | H] | H].
    + right. subst. rewrite lookup_dict_set. discriminate.
    + left. exact H.
    + right. apply lookup_dict_set_defined. exact H.
Qed.

Lemma format_items_substitute (items : list item) (args : dict) :
  (forall k, In k (fields items) -> lookup k args <> None) ->
  format_items rt items args
  = Ok (substitute (fun k => str_of rt (resolved args k)) items).
Proof.
  induction items as [| [text [k |]] items IH]; simpl; intros H.
  - reflexivity.
  - unfold resolved at 1.
    destruct (lookup k args) as [v |] eqn:L.
    + rewrite IH; [reflexivity |]. intros k' Hk'. apply H. right. exact Hk'.
    + exfalso. apply (H k); [left; reflexivity | exact L].
  - rewrite IH; [reflexivity | exact H].
Qed.

(** [utils.Requires.__call__] on a pattern whose fields are plain names:
    [None] when a resolved value is falsy, else the pattern with every
    occurrence of a name replaced by the text of the value that name
    resolved to.  It never raises. *)
Lemma Requires_call_resolves (pattern : string) (items : list item)
  (confirmed : bool) (sanitizer : option nat) (kwargs : dict) (w : W) :
  parse pattern = (items, PEnd) ->
  Requires_call rt (PStr pattern) confirmed sanitizer kwargs w
  = let (args, w') :=
      pull_args rt sanitizer (fields items) []
                (push_overrides rt kwargs confirmed items w) in
    (if any_falsy (dict_values args) then Ok PNone
     else Ok (PStr (substitute (fun k => str_of rt (resolved args k)) items)),
     w').
Proof.
  intros Hp. unfold Requires_call. rewrite Hp.
  pose proof (pull_args_defined sanitizer (fields items) []
                (push_overrides rt kwargs confirmed items w)) as Hd.
  destruct (pull_args rt sanitizer (fields items) []
              (push_overrides rt kwargs confirmed items w)) as [args w'].
  simpl in Hd.
  destruct (any_falsy (dict_values args)); [reflexivity |].
  rewrite format_items_substitute; [reflexivity |].
  intros k Hk. apply Hd. left. exact Hk.
Qed.

Lemma push_overrides_no_fields (kwargs : dict) (confirmed : bool)
  (items : list item) (w : W) :
  fields items = [] -> push_overrides rt kwargs confirmed items w = w.
Proof.
  induction items as [| [text [k |]] items IH]; simpl; intros H;
    [reflexivity | discriminate | exact (IH H)].
Qed.

Lemma substitute_no_fields (f : string -> string) (items : list item) :
  fields items = [] -> substitute f items = String.concat "" (map fst items).
Proof.
  induction items as [| [text [k |]] items IH]; simpl; intros H;
    [reflexivity | discriminate |].
  rewrite (IH H). destruct items as [| i items]; simpl.
  - induction text; simpl; congruence.
  - reflexivity.
Qed.

(** [utils.Requires.__call__] on a pattern without field: the literal text,
    whatever the environment, which is left untouched. *)
Lemma Requires_call_literal (pattern : string) (items : list item)
  (confirmed : bool) (sanitizer : option nat) (kwargs : dict) (w : W) :
  parse pattern = (items, PEnd) ->
  fields items = [] ->
  Requires_call rt (PStr pattern) confirmed sanitizer kwargs w
  = (Ok (PStr (String.concat "" (map fst items))), w).
Proof.
  intros Hp Hf. rewrite (Requires_call_resolves _ _ _ _ _ _ Hp).
  rewrite Hf, (push_overrides_no_fields _ _ _ _ Hf). simpl.
  rewrite (substitute_no_fields _ _ Hf). reflexivity.
Qed.

End ResolutionFacts.

Lemma snoc_append (acc : string) (c : ascii) (rest : string) :
  snoc acc c ++ rest = acc ++ String c rest.
Proof. unfold snoc. induction acc; simpl; congruence. Qed.

Lemma append_empty (s : string) : s ++ "" = s.
Proof. induction s; simpl; congruence. Qed.

Lemma scan_plain (s : string) :
  forall acc,
    no_braces s = true ->
    scan s (InLiteral acc) = (plain_items (acc ++ s), PEnd).
Proof.
  induction s as [| c s IH]; intros acc H.
  - rewrite append_empty. destruct acc; reflexivity.
  - simpl in H. apply andb_prop in H as [H Hs]. apply andb_prop in H as [H1 H2].
    apply negb_true_iff in H1, H2.
    simpl. rewrite H1, H2, (IH _ Hs), snoc_append. reflexivity.
Qed.

(** [utils.Requires.__call__] on a pattern without brace returns the
    pattern itself. *)
Lemma Requires_call_plain_text {W : Type} (rt : Runtime W) (pattern : string)
  (confirmed : bool) (sanitizer : option nat) (kwargs : dict) (w : W) :
  no_braces pattern = true ->
  Requires_call rt (PStr pattern) confirmed sanitizer kwargs w
  = (Ok (PStr pattern), w).
Proof.
  intros H.
  assert (Hp : parse pattern = (plain_items pattern, PEnd))
    by (apply (scan_plain pattern ""); exact H).
  rewrite (Requires_call_literal rt _ _ _ _ _ _ Hp).
  - destruct pattern; [reflexivity |]. simpl. reflexivity.
  - destruct pattern; reflexivity.
Qed.

(** ** The order of a set *)

Lemma key_eqb_eq (a b : option string) : key_eqb a b = true <-> a = b.
Proof.
  destruct a as [x |], b as [y |]; simpl; split; intros H;
    try discriminate; try reflexivity.
  - apply String.eqb_eq in H. subst. reflexivity.
  - inversion H. apply String.eqb_refl.
Qed.

Lemma insert_by_permutation (rank : option string -> nat)
  (k : option string) (l : list (option string)) :
  Permutation (insert_by rank k l) (k :: l).
Proof.
  induction l as [| k' l IH]; simpl; [apply Permutation_refl |].
  destruct (Nat.leb (rank k) (rank k')); [apply Permutation_refl |].
  apply perm_trans with (k' :: k :: l); [| apply perm_swap].
  apply perm_skip. exact IH.
Qed.

Lemma sort_by_permutation (rank : option string -> nat)
  (l : list (option string)) :
  Permutation (sort_by rank l) l.
Proof.
  induction l as [| k l IH]; simpl; [apply perm_nil |].
  apply perm_trans with (k :: sort_by rank l);
    [apply insert_by_permutation | apply perm_skip; exact IH].
Qed.

(** The set is iterated element by element, each once, whatever the
    order. *)
Lemma iter_set_permutation {W : Type} (rt : Runtime W)
  (keys : list (option string)) :
  Permutation (iter_set rt keys) (set_of keys).
Proof. apply sort_by_permutation. Qed.

Lemma insert_by_sorted (rank : option string -> nat) (k : option string)
  (l : list (option string)) :
  StronglySorted (fun a b => rank a <= rank b) l ->
  StronglySorted (fun a b => rank a <= rank b) (insert_by rank k l).
Proof.
  induction l as [| k' l IH]; intros Hs; simpl.
  - constructor; constructor.
  - apply StronglySorted_inv in Hs as [Hl Hk'].
    destruct (Nat.leb (rank k) (rank k')) eqn:E.
    + apply Nat.leb_le in E. constructor.
      * constructor; assumption.
      * constructor; [exact E |].
        eapply Forall_impl; [| exact Hk'].
        intros x Hx. simpl in Hx. eapply Nat.le_trans; eassumption.
    + apply Nat.leb_gt in E. constructor; [apply IH; exact Hl |].
      apply (Permutation_Forall
               (Permutation_sym (insert_by_permutation rank k l))).
      constructor; [apply Nat.lt_le_incl; exact E | exact Hk'].
Qed.

Lemma sort_by_sorted (rank : option string -> nat)
  (l : list (option string)) :
  StronglySorted (fun a b => rank a <= rank b) (sort_by rank l).
Proof.
  induction l as [| k l IH]; simpl; [constructor |].
  apply insert_by_sorted. exact IH.
Qed.

(** Two listings of the same elements in the order of a rank that tells
    them apart are the same listing. *)
Lemma sorted_unique (rank : option string -> nat)
  (l1 : list (option string)) :
  forall l2,
    StronglySorted (fun a b => rank a <= rank b) l1 ->
    StronglySorted (fun a b => rank a <= rank b) l2 ->
    Permutation l1 l2 ->
    (forall a b, In a l1 -> In b l1 -> rank a = rank b -> a = b) ->
    l1 = l2.
Proof.
  induction l1 as [| a l1 IH]; intros l2 H1 H2 Hp Hinj.
  - apply Permutation_nil in Hp. subst. reflexivity.
  - destruct l2 as [| b l2];
      [apply Permutation_sym, Permutation_nil_cons in Hp; contradiction |].
    apply StronglySorted_inv in H1 as [H1 Ha].
    apply StronglySorted_inv in H2 as [H2 Hb].
    assert (Hab : rank a <= rank b).
    { assert (Hin : In b (a :: l1))
        by (apply (Permutation_in _ (Permutation_sym Hp)); left; reflexivity).
      destruct Hin as [E | Hin]; [subst; apply Nat.le_refl |].
      rewrite Forall_forall in Ha. apply Ha. exact Hin. }
    assert (Hba : rank b <= rank a).
    { assert (Hin : In a (b :: l2))
        by (apply (Permutation_in _ Hp); left; reflexivity).
      destruct Hin as [E | Hin]; [subst; apply Nat.le_refl |].
      rewrite Forall_forall in Hb. apply Hb. exact Hin. }
    assert (E : a = b).
    { apply Hinj; [left; reflexivity | | apply Nat.le_antisymm; assumption].
      apply (Permutation_in _ (Permutation_sym Hp)). left. reflexivity. }
    subst b. f_equal. apply IH; [exact H1 | exact H2 | |].
    + apply (Permutation_cons_inv Hp).
    + intros x y Hx Hy. apply Hinj; right; assumption.
Qed.

Lemma index_of_injective (l : list (option string)) :
  forall a b, In a l -> In b l -> index_of l a = index_of l b -> a = b.
Proof.
  induction l as [| c l IH]; intros a b Ha Hb H; [contradiction |].
  simpl in H.
  destruct (key_eqb a c) eqn:Eac, (key_eqb b c) eqn:Ebc.
  - apply key_eqb_eq in Eac, Ebc. congruence.
  - discriminate.
  - discriminate.
  - apply IH; [| | congruence].
    + destruct Ha as [E | Ha]; [| exact Ha]. subst c.
      rewrite (proj2 (key_eqb_eq a a) eq_refl) in Eac. discriminate.
    + destruct Hb as [E | Hb]; [| exact Hb]. subst c.
      rewrite (proj2 (key_eqb_eq b b) eq_refl) in Ebc. discriminate.
Qed.

Lemma sorted_on_elements (R R' : option string -> option string -> Prop)
  (l : list (option string)) :
  (forall x y, In x l -> In y l -> R x y -> R' x y) ->
  StronglySorted R l -> StronglySorted R' l.
Proof.
  induction l as [| a l IH]; intros Himp Hs; [constructor |].
  apply StronglySorted_inv in Hs as [Hl Ha]. constructor.
  - apply IH; [| exact Hl]. intros x y Hx Hy. apply Himp; right; assumption.
  - rewrite Forall_forall in Ha |- *. intros x Hx.
    apply Himp; [left; reflexivity | right; exact Hx | apply Ha; exact Hx].
Qed.

Lemma index_of_sorted (l : list (option string)) :
  NoDup l ->
  StronglySorted (fun a b => index_of l a <= index_of l b) l.
Proof.
  induction l as [| c l IH]; intros Hn; [constructor |].
  inversion Hn as [| ? ? Hc Hl]; subst. constructor.
  - apply (sorted_on_elements
             (fun a b => index_of l a <= index_of l b)); [| exact (IH Hl)].
    intros x y Hx Hy Hxy. simpl.
    destruct (key_eqb x c) eqn:Ex;
      [apply key_eqb_eq in Ex; subst; contradiction |].
    destruct (key_eqb y c) eqn:Ey;
      [apply key_eqb_eq in Ey; subst; contradiction |].
    apply le_n_S. exact Hxy.
  - apply Forall_forall. intros x _. simpl.
    rewrite (proj2 (key_eqb_eq c c) eq_refl). apply Nat.le_0_l.
Qed.

(** The model leaves the order of a set open: every listing [l'] of its
    elements is the order of iteration under some rank, the place in
    [l']. *)
Lemma every_order_is_possible (l l' : list (option string)) :
  NoDup l' -> Permutation l l' -> sort_by (index_of l') l = l'.
Proof.
  intros Hn Hp.
  apply (sorted_unique (index_of l')).
  - apply sort_by_sorted.
  - apply index_of_sorted. exact Hn.
  - apply perm_trans with l; [apply sort_by_permutation | exact Hp].
  - intros a b Ha Hb. apply index_of_injective.
    + apply (Permutation_in _ Hp).
      apply (Permutation_in _ (sort_by_permutation (index_of l') l)).
      exact Ha.
    + apply (Permutation_in _ Hp).
      apply (Permutation_in _ (sort_by_permutation (index_of l') l)).
      exact Hb.
Qed.

(** Under [SpecEnv.runtime_in_order l'] a set whose elements are those of
    [l'] is iterated as [l'] lists them. *)
Lemma iter_set_in_order (keys l' : list (option string)) :
  NoDup l' ->
  Permutation (set_of keys) l' ->
  iter_set (SpecEnv.runtime_in_order l') keys = l'.
Proof. intros Hn Hp. apply every_order_is_possible; assumption. Qed.

Section RenderContextFacts.

Context {W : Type} (rt : Runtime W).

Lemma set_of_literal (items : list item) :
  items <> [] -> fields items = [] -> set_of (item_keys items) = [None].
Proof.
  induction items as [| [text [k |]] items IH]; intros Hn Hf;
    [contradiction | discriminate |].
  simpl in Hf.
  change (set_of (item_keys ((text, None) :: items)))
    with (None :: filter (fun k' => negb (key_eqb None k'))
                         (set_of (item_keys items))).
  destruct items as [| i items]; [reflexivity |].
  rewrite IH; [reflexivity | discriminate | exact Hf].
Qed.

Lemma iter_set_literal (items : list item) :
  items <> [] -> fields items = [] -> iter_set rt (item_keys items) = [None].
Proof.
  intros Hn Hf. unfold iter_set. rewrite (set_of_literal items Hn Hf).
  reflexivity.
Qed.

(** C6, on [templates.RenderContext.render_string].  For a pattern that is
    literal text only, [_keys] is [{None}]: the unpacking of the context
    reads the key [None] from the environment, and the result depends on that
    read.  An empty value gives [None]; the text is returned only when the
    environment holds a non-empty value under the key [None]; an exception
    of the read other than [ValueError] leaves the call, as the unpacking
    reports it. *)
Theorem C6_literal_pattern_reads_the_key_None (pattern : string)
  (items : list item) (confirmed : bool) (sanitizer : option nat)
  (kwargs : dict) (w : W) :
  parse pattern = (items, PEnd) ->
  items <> [] ->
  fields items = [] ->
  render_string rt confirmed sanitizer (PStr pattern) kwargs w
  = match env_getitem rt None w with
    | (Ok v, w') =>
        if truthy v then (Ok (PStr (String.concat "" (map fst items))), w')
        else (Ok PNone, w')
    | (Raise ValueError, w') => (Ok PNone, w')
    | (Raise e, w') => (Raise (unpack_error e), w')
    end.
Proof.
  intros Hp Hn Hf. unfold render_string. rewrite Hp.
  rewrite (iter_set_literal items Hn Hf). simpl set_overrides.
  unfold suppress_ValueError, unpack, RenderContext_getitem.
  cbn [mapM]. unfold bind, ret, raise.
  destruct (env_getitem rt None w) as [[v | e] w'].
  - destruct (truthy v); [| reflexivity].
    cbn [keyword_args]. rewrite format_items_substitute.
    + rewrite (substitute_no_fields _ _ Hf). reflexivity.
    + rewrite Hf. intros k [].
  - destruct e; reflexivity.
Qed.

(** C1, on [templates.RenderContext.render_string], for a pattern made of
    one field followed by text: the item of the trailing text puts [None]
    among the keys, and an empty value under the key [None] turns the
    result into [None] although the field resolved to a non-empty value.
    The set of the two keys is iterated in one order or the other.  When
    the field comes first, it is read, then the key [None], and the result
    is [None].  When the key [None] comes first, the result is [None] after
    that one read. *)
Theorem C1_trailing_text_reads_the_key_None (name text : string)
  (confirmed : bool) (kwargs : dict) (w w1 w2 : W) (v v0 : obj) :
  parse (String "{" name ++ String "}" text)
  = ([(EmptyString, Some name); (text, None)], PEnd) ->
  lookup name kwargs = None ->
  env_getitem rt (Some name) w = (Ok v, w1) ->
  truthy v = true ->
  env_getitem rt None w1 = (Ok v0, w2) ->
  truthy v0 = false ->
  (iter_set rt [Some name; None] = [Some name; None]
   /\ render_string rt confirmed None
        (PStr (String "{" name ++ String "}" text)) kwargs w
      = (Ok PNone, w2))
  \/ (iter_set rt [Some name; None] = [None; Some name]
      /\ forall v1 w3,
           env_getitem rt None w = (Ok v1, w3) ->
           truthy v1 = false ->
           render_string rt confirmed None
             (PStr (String "{" name ++ String "}" text)) kwargs w
           = (Ok PNone, w3)).
Proof.
  intros Hp Hk H1 Ht H2 Hf. unfold render_string. rewrite Hp.
  change (item_keys [(EmptyString, Some name); (text, None)])
    with [Some name; None].
  assert (Ho : iter_set rt [Some name; None]
               = if Nat.leb (set_rank rt [Some name; None] (Some name))
                            (set_rank rt [Some name; None] None)
                 then [Some name; None] else [None; Some name])
    by reflexivity.
  destruct (Nat.leb _ _); rewrite Ho; [left | right];
    (split; [reflexivity |]).
  - simpl set_overrides. rewrite Hk.
    unfold suppress_ValueError, unpack, RenderContext_getitem.
    cbn [mapM]. unfold bind, ret, raise.
    rewrite H1, Ht. cbn [apply_sanitizer]. rewrite H2, Hf. reflexivity.
  - intros v1 w3 H3 Hf1. simpl set_overrides. rewrite Hk.
    unfold suppress_ValueError, unpack, RenderContext_getitem.
    cbn [mapM]. unfold bind, ret, raise.
    rewrite H3, Hf1. reflexivity.
Qed.

End RenderContextFacts.

Lemma C6_literal_pattern_reads_the_key_None_witness :
  call SpecEnv.runtime templates (Requires "hello") []
  = (Ok PNone, [(None, (PStr "", false))])
  /\ call SpecEnv.runtime utils (Requires "hello") []
     = (Ok (PStr "hello"), []).
Proof.
  split; [| reflexivity].
  exact (C6_literal_pattern_reads_the_key_None SpecEnv.runtime "hello"
           [("hello", None)] false None [] []
           eq_refl ltac:(discriminate) eq_refl).
Defined.

Lemma C1_trailing_text_reads_the_key_None_witness :
  call SpecEnv.runtime templates (Requires "{A}!")
       (SpecEnv.of_list [("A", "x")])
  = (Ok PNone, [(Some "A", (PStr "x", true)); (None, (PStr "", false))])
  /\ call (SpecEnv.runtime_in_order [None; Some "A"]) templates
          (Requires "{A}!") (SpecEnv.of_list [("A", "x")])
     = (Ok PNone, [(Some "A", (PStr "x", true)); (None, (PStr "", false))])
  /\ call SpecEnv.runtime utils (Requires "{A}!")
          (SpecEnv.of_list [("A", "x")])
     = (Ok (PStr "x!"), [(Some "A", (PStr "x", true))]).
Proof.
  split; [| split; [| reflexivity]].
  - destruct (C1_trailing_text_reads_the_key_None SpecEnv.runtime "A" "!"
                false []
                (SpecEnv.of_list [("A", "x")]) (SpecEnv.of_list [("A", "x")])
                [(Some "A", (PStr "x", true)); (None, (PStr "", false))]
                (PStr "x") (PStr "")
                eq_refl eq_refl eq_refl eq_refl eq_refl eq_refl)
      as [[_ H] | [H _]]; [exact H | discriminate H].
  - destruct (C1_trailing_text_reads_the_key_None
                (SpecEnv.runtime_in_order [None; Some "A"]) "A" "!"
                false []
                (SpecEnv.of_list [("A", "x")]) (SpecEnv.of_list [("A", "x")])
                [(Some "A", (PStr "x", true)); (None, (PStr "", false))]
                (PStr "x") (PStr "")
                eq_refl eq_refl eq_refl eq_refl eq_refl eq_refl)
      as [[H _] | [_ H]]; [discriminate H |].
    exact (H (PStr "")
             [(Some "A", (PStr "x", true)); (None, (PStr "", false))]
             eq_refl eq_refl).
Defined.

(** ** Overrides come before reads *)

Section TraceFacts.

Context {W : Type} (rt : Runtime W).

Lemma push_overrides_logged (kwargs : dict) (confirmed : bool)
  (items : list item) :
  forall (log : list event) (w : W),
    push_overrides (logged rt) kwargs confirmed items (log, w)
    = ((log ++ pushes_of kwargs confirmed (fields items))%list,
       push_overrides rt kwargs confirmed items w).
Proof.
  induction items as [| [text [k |]] items IH]; intros log w; simpl.
  - rewrite app_nil_r. reflexivity.
  - destruct (lookup k kwargs) as [v |]; [| apply IH].
    rewrite IH. rewrite <- app_assoc. reflexivity.
  - apply IH.
Qed.

Lemma pull_args_logged (sanitizer : option nat) (keys : list string) :
  forall (args : dict) (log : list event) (w : W),
    pull_args (logged rt) sanitizer keys args (log, w)
    = (fst (pull_args rt sanitizer keys args w),
       ((log ++ map EPull keys)%list,
        snd (pull_args rt sanitizer keys args w))).
Proof.
  induction keys as [| k keys IH]; intros args log w; simpl.
  - rewrite app_nil_r. reflexivity.
  - destruct (pull rt k w) as [v w']. rewrite IH, <- app_assoc. reflexivity.
Qed.

Lemma set_overrides_logged (kwargs : dict) (confirmed : bool)
  (keys : list (option string)) :
  forall (log : list event) (w : W),
    set_overrides (logged rt) kwargs confirmed keys (log, w)
    = ((log ++ sets_of kwargs confirmed keys)%list,
       set_overrides rt kwargs confirmed keys w).
Proof.
  induction keys as [| [k |] keys IH]; intros log w; simpl.
  - rewrite app_nil_r. reflexivity.
  - destruct (lookup k kwargs) as [v |]; [| apply IH].
    rewrite IH, <- app_assoc. reflexivity.
  - apply IH.
Qed.

Lemma getitem_logged (sanitizer : option nat) (key : option string)
  (log : list event) (w : W) :
  RenderContext_getitem (logged rt) sanitizer key (log, w)
  = (fst (RenderContext_getitem rt sanitizer key w),
     ((log ++ [EGet key])%list,
      snd (RenderContext_getitem rt sanitizer key w))).
Proof.
  unfold RenderContext_getitem, bind. simpl.
  destruct (env_getitem rt key w) as [[v | e] w']; simpl; [| reflexivity].
  destruct (truthy v); reflexivity.
Qed.

Lemma unpack_cons (rt' : Runtime (list event * W)) (sanitizer : option nat)
  (k : option string) (keys : list (option string)) (s : list event * W) :
  unpack rt' sanitizer (k :: keys) s
  = match RenderContext_getitem rt' sanitizer k s with
    | (Ok v, s1) =>
        match unpack rt' sanitizer keys s1 with
        | (Ok kw, s2) => (Ok ((k, v) :: kw), s2)
        | (Raise e, s2) => (Raise e, s2)
        end
    | (Raise e, s1) => (Raise (unpack_error e), s1)
    end.
Proof.
  unfold unpack. cbn [mapM]. unfold bind, ret.
  destruct (RenderContext_getitem rt' sanitizer k s) as [[v | e] s1];
    [| reflexivity].
  destruct (mapM _ keys s1) as [[kw | e] s2]; reflexivity.
Qed.

Lemma unpack_logged (sanitizer : option nat) (keys : list (option string)) :
  forall (log : list event) (w : W),
  exists n,
    fst (snd (unpack (logged rt) sanitizer keys (log, w)))
    = (log ++ map EGet (firstn n keys))%list.
Proof.
  induction keys as [| k keys IH]; intros log w.
  - exists 0. simpl. rewrite app_nil_r. reflexivity.
  - rewrite unpack_cons, getitem_logged.
    destruct (RenderContext_getitem rt sanitizer k w) as [[v | e] w'];
      cbn [fst snd].
    + destruct (IH (log ++ [EGet k])%list w') as [n Hn].
      exists (S n).
      destruct (unpack (logged rt) sanitizer keys _) as [[kw | e] s2];
        simpl in Hn |- *; rewrite Hn, <- app_assoc; reflexivity.
    + exists 1. reflexivity.
Qed.

(** C7, as the code has it.  Both resolutions write the overrides before
    any read, but only the overrides whose name is a field of the pattern:
    once per occurrence with [push] in [utils], in the order of the pattern;
    once per name in [templates], in the order in which the interpreter
    iterates the set of the names, the reads following in that same order.
    This holds at every state of the environment.  So the pattern [{NAME}]
    with the override [NAME = forced] resolves to [forced] in an environment
    where reading [NAME] after that write returns the value written. *)
Theorem C7_overrides_of_fields_come_first (pattern : string)
  (items : list item) (confirmed : bool) (sanitizer : option nat)
  (kwargs : dict) (w : W) :
  parse pattern = (items, PEnd) ->
  trace (Requires_call (logged rt) (PStr pattern) confirmed sanitizer kwargs) w
  = (pushes_of kwargs confirmed (fields items)
     ++ map EPull (fields items))%list
  /\ (exists n,
        trace (render_string (logged rt) confirmed sanitizer (PStr pattern)
                 kwargs) w
        = (sets_of kwargs confirmed (iter_set rt (item_keys items))
           ++ map EGet (firstn n (iter_set rt (item_keys items))))%list)
  /\ Permutation (iter_set rt (item_keys items)) (set_of (item_keys items))
  /\ (fst (pull rt "NAME" (push rt "NAME" (PStr "forced") confirmed w))
      = PStr "forced" ->
      fst (Requires_call rt (PStr "{NAME}") confirmed None
             [("NAME", PStr "forced")] w)
      = Ok (PStr "forced"))
  /\ (fst (env_getitem rt (Some "NAME")
             (env_setitem rt "NAME" (PStr "forced") confirmed w))
      = Ok (PStr "forced") ->
      fst (render_string rt confirmed None (PStr "{NAME}")
             [("NAME", PStr "forced")] w)
      = Ok (PStr "forced")).
Proof.
  intros Hp.
  assert (Hname : parse "{NAME}" = ([("", Some "NAME")], PEnd))
    by reflexivity.
  split; [| split; [| split; [| split]]].
  - unfold trace, Requires_call. rewrite Hp.
    rewrite push_overrides_logged, pull_args_logged. simpl.
    destruct (any_falsy _); [reflexivity |].
    destruct (format_items _ _ _); reflexivity.
  - unfold trace, render_string. rewrite Hp.
    change (iter_set (logged rt) (item_keys items))
      with (iter_set rt (item_keys items)).
    rewrite set_overrides_logged. cbn [app].
    destruct (unpack_logged sanitizer (iter_set rt (item_keys items))
                (sets_of kwargs confirmed (iter_set rt (item_keys items)))
                (set_overrides rt kwargs confirmed
                   (iter_set rt (item_keys items)) w))
      as [n Hn].
    exists n. unfold suppress_ValueError, bind.
    destruct (unpack (logged rt) sanitizer (iter_set rt (item_keys items)) _)
      as [[kw | e] s'].
    + simpl in Hn.
      destruct (format_items _ _ _) as [s0 | e]; [exact Hn |].
      unfold raise. destruct e; exact Hn.
    + simpl in Hn. destruct e; exact Hn.
  - apply iter_set_permutation.
  - intros Henv. unfold Requires_call. rewrite Hname. simpl.
    destruct (pull rt "NAME" (push rt "NAME" (PStr "forced") confirmed w))
      as [v w'] eqn:E.
    simpl in Henv. subst v. reflexivity.
  - intros Hget.
    destruct (env_getitem rt (Some "NAME")
                (env_setitem rt "NAME" (PStr "forced") confirmed w))
      as [r w'] eqn:E.
    simpl in Hget. subst r.
    unfold render_string. rewrite Hname.
    change (iter_set rt (item_keys [("", Some "NAME")]))
      with [Some "NAME"].
    cbn [set_overrides lookup String.eqb Ascii.eqb Bool.eqb].
    unfold suppress_ValueError, unpack, RenderContext_getitem.
    cbn [mapM]. unfold bind, ret, raise.
    rewrite E. reflexivity.
Qed.

End TraceFacts.

(** C7, as stated, fails: an override whose name is not a field of the
    pattern is never written to the environment, by either module. *)
Lemma C7_override_outside_the_pattern_is_ignored :
  trace (call (logged SpecEnv.runtime) utils
           (PRequires (PStr "{A}") false None [("B", PStr "x")])) []
  = [EPull "A"]
  /\ trace (call (logged SpecEnv.runtime) templates
              (PRequires (PStr "{A}") false None [("B", PStr "x")])) []
     = [EGet (Some "A")]
  /\ ~ In (EPush "B" (PStr "x") false)
          (trace (call (logged SpecEnv.runtime) utils
                    (PRequires (PStr "{A}") false None [("B", PStr "x")])) []).
Proof.
  split; [reflexivity |]. split; [reflexivity |].
  intros [H | []]. discriminate.
Qed.

Lemma C7_overrides_of_fields_come_first_witness :
  trace (Requires_call (logged SpecEnv.runtime) (PStr "{NAME}") true None
           [("NAME", PStr "forced"); ("OTHER", PStr "unused")]) []
  = [EPush "NAME" (PStr "forced") true; EPull "NAME"]
  /\ fst (Requires_call SpecEnv.runtime (PStr "{NAME}") true None
            [("NAME", PStr "forced")] [])
     = Ok (PStr "forced")
  /\ fst (render_string SpecEnv.runtime true None (PStr "{NAME}")
            [("NAME", PStr "forced")] [])
     = Ok (PStr "forced").
Proof.
  destruct (C7_overrides_of_fields_come_first SpecEnv.runtime "{NAME}"
              [("", Some "NAME")] true None
              [("NAME", PStr "forced"); ("OTHER", PStr "unused")] []
              eq_refl) as (Ht & _ & _ & Hv & Hr).
  split; [exact Ht | split; [exact (Hv eq_refl) | exact (Hr eq_refl)]].
Defined.

(** * Further properties of the code *)

(** ** The loops of [__setitem__] and [__ior__] *)

Section LoopFacts.

Variable custom : nat -> obj -> obj.

Lemma setitem_wrap_entry (m : module) (keys : list string) (v : obj)
  (t : transform) :
  setitem custom m keys (wrap_entry m v t)
  = match m, v with
    | templates, PTransform v' t' => assign custom m v' t' keys
    | _, _ => assign custom m v t keys
    end.
Proof. destruct m; [reflexivity |]. destruct v; reflexivity. Qed.

Lemma assign_mapping (m : module) (t : transform) (keys : list string)
  (entries : dict) (data : dict) :
  assign custom m (PDict entries) t keys data
  = assign_entries custom m t keys entries data.
Proof.
  simpl. revert data. induction entries as [| [k v] entries IH]; intros data;
    [reflexivity |].
  cbn [assign_entries]. rewrite setitem_wrap_entry. unfold bind.
  destruct (match m, v with
            | templates, PTransform v' t' =>
                assign custom m v' t' (keys ++ [k])%list
            | _, _ => assign custom m v t (keys ++ [k])%list
            end data) as [[[] | e] data1]; [apply IH | reflexivity].
Qed.

Lemma setitem_wrap_default (m : module) (keys : list string) (v : obj) :
  m = templates \/ is_transform v = false ->
  setitem custom m keys (wrap_entry m v TRequires) = setitem custom m keys v.
Proof.
  intros H. destruct m.
  - destruct H as [H | H]; [discriminate |].
    destruct v; try discriminate; reflexivity.
  - destruct v; reflexivity.
Qed.

Lemma assign_entries_each (m : module) (entries : dict) :
  m = templates
  \/ forallb (fun kv => negb (is_transform (snd kv))) entries = true ->
  forall data,
    assign_entries custom m TRequires [] entries data
    = assign_each custom m entries data.
Proof.
  induction entries as [| [k v] entries IH]; intros H data; [reflexivity |].
  cbn [assign_entries assign_each app]. rewrite setitem_wrap_default.
  - unfold bind.
    destruct (setitem custom m [k] v data) as [[[] | e] data1];
      [| reflexivity].
    apply IH. destruct H as [H | H]; [left; exact H | right].
    simpl in H. apply andb_prop in H. tauto.
  - destruct H as [H | H]; [left; exact H | right].
    simpl in H. apply andb_prop in H as [H _].
    apply negb_true_iff in H. exact H.
Qed.

(** X2. [__ior__] with a mapping assigns each entry in turn as
    [self[key] = value] does, in the order of the mapping, and stops at the
    first assignment that raises; with anything that is not a mapping it
    raises [AssertionError] and changes nothing.  In [utils] the entries are
    not [Transform] objects ([utils] wraps an entry a second time). *)
Theorem ior_assigns_each_entry (m : module) (entries : dict) (other : obj)
  (data : dict) :
  m = templates
  \/ forallb (fun kv => negb (is_transform (snd kv))) entries = true ->
  ior custom m (PDict entries) data = assign_each custom m entries data
  /\ (match fst (_get_transform other None) with
      | PDict _ => False
      | _ => True
      end ->
      ior custom m other data = (Raise AssertionError, data)).
Proof.
  intros H. split.
  - unfold ior. cbn [_get_transform]. rewrite assign_mapping.
    apply assign_entries_each. exact H.
  - unfold ior. destruct (_get_transform other None) as [v t]. simpl.
    destruct v; intros Hv; try contradiction; reflexivity.
Qed.

End LoopFacts.

(** ** Walking the key path *)

Lemma navigate_last (op : string -> M dict unit) (key : string) :
  navigate [key] op = op key.
Proof. reflexivity. Qed.

(** An operation that leaves the last mapping as it is leaves the whole
    structure as it is. *)
Lemma navigate_unchanged (op : string -> M dict unit) (r : result unit)
  (stored : obj) (keys : list string) :
  (forall key config,
      lookup key config = Some stored -> op key config = (r, config)) ->
  forall data,
    get_path keys data = Some stored ->
    navigate keys op data = (r, data).
Proof.
  intros Hop. induction keys as [| key keys IH]; intros data Hp;
    [discriminate |].
  destruct keys as [| key' keys].
  - simpl in Hp. rewrite navigate_last. apply Hop. exact Hp.
  - rewrite navigate_cons. cbn [get_path] in Hp.
    destruct (lookup key data) as [[] |] eqn:L; try discriminate.
    rewrite (IH _ Hp), (dict_set_lookup _ _ _ L). reflexivity.
Qed.

(** An operation that replaces the value at the last key replaces the value
    at the path. *)
Lemma navigate_replace (op : string -> M dict unit) (stored new : obj)
  (keys : list string) :
  (forall key config,
      lookup key config = Some stored ->
      op key config = (Ok tt, dict_set key new config)) ->
  forall data,
    get_path keys data = Some stored ->
    exists data',
      navigate keys op data = (Ok tt, data')
      /\ get_path keys data' = Some new.
Proof.
  intros Hop. induction keys as [| key keys IH]; intros data Hp;
    [discriminate |].
  destruct keys as [| key' keys].
  - simpl in Hp. rewrite navigate_last, (Hop _ _ Hp).
    eexists. split; [reflexivity |]. simpl. apply lookup_dict_set.
  - rewrite navigate_cons. cbn [get_path] in Hp |- *.
    destruct (lookup key data) as [[] |] eqn:L; try discriminate.
    destruct (IH _ Hp) as (sub' & Hn & Hg). rewrite Hn.
    eexists. split; [reflexivity |]. rewrite lookup_dict_set. exact Hg.
Qed.

Lemma navigate_blocked (op : string -> M dict unit) (keys : list string) :
  forall data,
    blocked keys data = true ->
    navigate keys op data = (Raise TypeError, data).
Proof.
  induction keys as [| key keys IH]; intros data Hb; [discriminate |].
  destruct keys as [| key' keys]; [discriminate |].
  rewrite navigate_cons. cbn [blocked] in Hb.
  destruct (lookup key data) as [slot |] eqn:L; [| discriminate].
  destruct slot; try reflexivity.
  rewrite (IH _ Hb), (dict_set_lookup _ _ _ L). reflexivity.
Qed.

Lemma blocked_empty (keys : list string) : blocked keys [] = false.
Proof. destruct keys as [| k [| k' keys]]; reflexivity. Qed.

Lemma navigate_scalar_returns (v : obj) (keys : list string) :
  forall data,
    keys <> [] ->
    blocked keys data = false ->
    fst (navigate keys (store_scalar v) data) = Ok tt.
Proof.
  induction keys as [| key keys IH]; intros data Hn Hb; [contradiction |].
  destruct keys as [| key' keys].
  - rewrite navigate_last. unfold store_scalar.
    destruct (lookup key data); [destruct (negb _) |]; reflexivity.
  - rewrite navigate_cons. cbn [blocked] in Hb.
    destruct (lookup key data) as [slot |] eqn:L.
    + destruct slot; try discriminate.
      specialize (IH entries ltac:(discriminate) Hb).
      destruct (navigate (key' :: keys) (store_scalar v) entries). exact IH.
    + specialize (IH [] ltac:(discriminate) (blocked_empty _)).
      destruct (navigate (key' :: keys) (store_scalar v) []). exact IH.
Qed.

Section PathFacts.

Variable custom : nat -> obj -> obj.

Lemma setitem_sequence (m : module) (keys : list string) (value : obj)
  (values : list obj) :
  sequence_elements (fst (_get_transform value None)) = Some values ->
  setitem custom m keys value
  = navigate keys
      (store_sequence custom values (snd (_get_transform value None))).
Proof.
  unfold setitem. destruct (_get_transform value None) as [v t]. simpl.
  destruct v; intros H; try discriminate; simpl in H; inversion H;
    reflexivity.
Qed.

(** X3. Assigning a sequence at a key path that holds a mapping raises
    [AssertionError] and leaves the structure as it was. *)
Theorem sequence_onto_mapping_fails (m : module) (keys : list string)
  (value : obj) (values : list obj) (entries : dict) (data : dict) :
  sequence_elements (fst (_get_transform value None)) = Some values ->
  get_path keys data = Some (PDict entries) ->
  setitem custom m keys value data = (Raise AssertionError, data).
Proof.
  intros Hs Hp. rewrite (setitem_sequence m keys value values Hs).
  apply (navigate_unchanged _ _ (PDict entries)); [| exact Hp].
  intros key config L. unfold store_sequence. rewrite L, L. reflexivity.
Qed.

(** X4. How the assignment of a scalar ends when it calls no function of
    the caller (the leaf is the value itself, or made by [Requires] or by
    the default [lambda x: x]): [IndexError] on the empty key path,
    [TypeError] when a value on the way is not a mapping, and it returns
    otherwise; when it raises, the structure is as it was.  A wrap function
    of the caller is called after the walk along the key path and may raise
    there; the statement leaves that case out. *)
Theorem scalar_assignment_outcome (m : module) (keys : list string)
  (value : obj) (data : dict) :
  scalar value = true ->
  builtin_wrap (fst (_get_transform value None))
               (snd (_get_transform value None)) = true ->
  fst (setitem custom m keys value data)
  = match keys with
    | [] => Raise IndexError
    | _ :: _ => if blocked keys data then Raise TypeError else Ok tt
    end
  /\ (fst (setitem custom m keys value data) <> Ok tt ->
      snd (setitem custom m keys value data) = data).
Proof.
  intros Hs _. rewrite (setitem_scalar custom m keys value Hs).
  destruct keys as [| key keys]; [split; reflexivity |].
  destruct (blocked (key :: keys) data) eqn:Hb.
  - rewrite navigate_blocked by exact Hb. split; reflexivity.
  - rewrite navigate_scalar_returns by (discriminate || exact Hb).
    split; [reflexivity | intros H; contradiction].
Qed.

(** X5. After the assignment of a scalar, the key path holds the new leaf
    when it was free, the stored value when it equals the new leaf, and
    [MultipleValues(new leaf, stored value)] otherwise. *)
Theorem path_after_scalar_assignment (m : module) (keys : list string)
  (value : obj) (data data' : dict) :
  scalar value = true ->
  setitem custom m keys value data = (Ok tt, data') ->
  get_path keys data'
  = Some match get_path keys data with
         | None => leaf_of custom value
         | Some stored =>
             if py_eq stored (leaf_of custom value) then stored
             else MultipleValues_init (leaf_of custom value) stored
         end.
Proof.
  intros Hs H. rewrite (setitem_scalar custom m keys value Hs) in H.
  destruct (get_path keys data) as [stored |] eqn:Hp.
  - destruct (py_eq stored (leaf_of custom value)) eqn:He.
    + rewrite (navigate_equal _ _ _ _ Hp He) in H. inversion H; subst.
      exact Hp.
    + destruct (navigate_conflict _ _ _ _ Hp He) as (d2 & Hn & Hg).
      rewrite Hn in H. inversion H; subst. exact Hg.
  - exact (navigate_fresh _ _ _ _ Hp H).
Qed.

(** The list only grows at its end. *)
Lemma extend_appends (t : transform) (values : list obj) :
  forall stored,
  exists added,
    extend custom t values stored = (stored ++ added)%list
    /\ List.length added <= List.length values
    /\ Forall (fun x => exists v, In v values /\ x = _get_value custom v t)
              added.
Proof.
  induction values as [| v values IH]; intros stored.
  - exists []. simpl. rewrite app_nil_r. auto.
  - simpl. destruct (py_in v stored).
    + destruct (IH stored) as (added & He & Hl & Hf).
      exists added. split; [exact He |]. split; [auto with arith |].
      eapply Forall_impl; [| exact Hf].
      intros x (v0 & Hin & Hx). exists v0. auto.
    + destruct (IH (stored ++ [_get_value custom v t])%list)
        as (added & He & Hl & Hf).
      exists (_get_value custom v t :: added).
      split; [rewrite He, <- app_assoc; reflexivity |].
      split; [simpl; auto with arith |].
      constructor; [exists v; auto |].
      eapply Forall_impl; [| exact Hf].
      intros x (v0 & Hin & Hx). exists v0. auto.
Qed.


(** X7. Assigning a scalar whose leaf is not a conflict set at a key path
    that holds a conflict set puts the new leaf in front of the candidates:
    a conflict set never equals a leaf of another kind. *)
Theorem conflict_set_grows_at_its_head (m : module) (keys : list string)
  (value : obj) (candidates : list obj) (data : dict) :
  scalar value = true ->
  is_multiple (leaf_of custom value) = false ->
  get_path keys data = Some (PMultiple candidates) ->
  exists data',
    setitem custom m keys value data = (Ok tt, data')
    /\ get_path keys data'
       = Some (PMultiple (leaf_of custom value :: candidates)).
Proof.
  intros Hs Hm Hp. rewrite (setitem_scalar custom m keys value Hs).
  apply (navigate_conflict _ _ _ _ Hp).
  destruct (leaf_of custom value); try reflexivity. discriminate.
Qed.

Lemma navigate_empty (op : string -> M dict unit) (new : obj)
  (keys : list string) :
  keys <> [] ->
  (forall key, op key [] = (Ok tt, [(key, new)])) ->
  navigate keys op [] = (Ok tt, nest keys new).
Proof.
  intros Hn Hop. induction keys as [| key keys IH]; [contradiction |].
  destruct keys as [| key' keys].
  - rewrite navigate_last. apply Hop.
  - rewrite navigate_cons. cbn [lookup nest].
    rewrite IH by discriminate. reflexivity.
Qed.

(** X8. The first assignment into an empty structure, at a key path that
    is not empty, when it calls no function of the caller, returns and builds
    the nested mappings of the path and nothing else:
    [{k1: {k2: ... {kn: leaf}}}] for a scalar; for a sequence, at the same
    place, the list that the loop of [__setitem__] builds from the empty
    list, where an element is left out only if it is itself found in the
    list built so far (a string repeated in the sequence gives two equal
    leaves). *)
Theorem first_assignment_builds_the_path (m : module) (keys : list string)
  (value : obj) :
  keys <> [] ->
  (scalar value = true ->
   builtin_wrap (fst (_get_transform value None))
                (snd (_get_transform value None)) = true ->
   setitem custom m keys value [] = (Ok tt, nest keys (leaf_of custom value)))
  /\ (forall values,
        sequence_elements (fst (_get_transform value None)) = Some values ->
        forallb (fun v => builtin_wrap v (snd (_get_transform value None)))
                values = true ->
        setitem custom m keys value []
        = (Ok tt,
           nest keys
             (PList (extend custom (snd (_get_transform value None))
                            values [])))).
Proof.
  intros Hn. split.
  - intros Hsc _. rewrite (setitem_scalar custom m keys value Hsc).
    apply navigate_empty; [exact Hn | reflexivity].
  - intros values Hs _.
    rewrite (setitem_sequence m keys value values Hs).
    apply navigate_empty; [exact Hn |].
    intros key. unfold store_sequence. simpl.
    rewrite String.eqb_refl. reflexivity.
Qed.

End PathFacts.

(** ** Equality is reflexive *)


Lemma lookup_absent {A : Type} (k : string) (d : list (string * A)) :
  existsb (String.eqb k) (dict_keys d) = false -> lookup k d = None.
Proof.
  induction d as [| [k' v] d IH]; simpl; [reflexivity |].
  destruct (String.eqb k k'); [discriminate | exact IH].
Qed.







Section RepeatedAssignment.

Variable custom : nat -> obj -> obj.


(** ** De-duplication of callables *)

Lemma py_in_app (v : obj) (l l' : list obj) :
  py_in v l = true -> py_in v (l ++ l') = true.
Proof.
  unfold py_in. rewrite existsb_app. intros H. rewrite H. reflexivity.
Qed.

Lemma py_in_extend (t : transform) (v : obj) (values : list obj) :
  forall stored,
    py_in v stored = true -> py_in v (extend custom t values stored) = true.
Proof.
  intros stored H.
  destruct (extend_appends custom t values stored) as (added & He & _).
  rewrite He. apply py_in_app. exact H.
Qed.

Lemma extend_holds_callables (t : transform) (values : list obj) :
  Forall (fun v => callable v = true /\ py_eq v v = true) values ->
  forall stored v,
    In v values -> py_in v (extend custom t values stored) = true.
Proof.
  induction values as [| x values IH]; intros Hf stored v Hin;
    [contradiction |].
  inversion Hf as [| ? ? [Hc Hr] Hrest]; subst. simpl.
  destruct Hin as [E | Hin]; [subst x | apply IH; assumption].
  apply py_in_extend.
  destruct (py_in v stored) eqn:Hv; [exact Hv |].
  unfold py_in. rewrite existsb_app. simpl.
  assert (Hg : _get_value custom v t = v).
  { unfold _get_value. destruct v; try discriminate; reflexivity. }
  rewrite Hg, Hr. apply orb_true_r.
Qed.

(** X10. A sequence of callables assigned a second time at the same key
    path changes nothing: a callable is stored as it is, so the membership
    test finds it. *)
Theorem callables_are_stored_once (m : module) (keys : list string)
  (value : obj) (values stored : list obj) (data data1 : dict) :
  sequence_elements (fst (_get_transform value None)) = Some values ->
  Forall (fun v => callable v = true /\ py_eq v v = true) values ->
  get_path keys data = Some (PList stored) ->
  setitem custom m keys value data = (Ok tt, data1) ->
  setitem custom m keys value data1 = (Ok tt, data1).
Proof.
  intros Hs Hf Hp H1.
  rewrite (setitem_sequence custom m keys value values Hs) in H1 |- *.
  set (t := snd (_get_transform value None)) in *.
  destruct (navigate_replace (store_sequence custom values t) (PList stored)
              (PList (extend custom t values stored)) keys)
    with (data := data) as (d1 & Hn & Hg); [| exact Hp |].
  - intros key config L. unfold store_sequence. rewrite L, L. reflexivity.
  - rewrite Hn in H1. inversion H1; subst d1.
    apply (navigate_unchanged _ _ (PList (extend custom t values stored)));
      [| exact Hg].
    intros key config L. unfold store_sequence. rewrite L, L.
    rewrite (extend_present custom t values
               (extend custom t values stored)).
    + rewrite (dict_set_lookup _ _ _ L). reflexivity.
    + intros v Hin. apply extend_holds_callables; assumption.
Qed.

End RepeatedAssignment.

(** ** What an assignment leaves alone *)

Lemma dict_set_twice {A : Type} (k : string) (v v0 : A)
  (d : list (string * A)) :
  dict_set k v (dict_set k v0 d) = dict_set k v d.
Proof.
  induction d as [| [k' v'] d IH]; simpl.
  - rewrite String.eqb_refl. reflexivity.
  - destruct (String.eqb k k') eqn:E; simpl; rewrite E; [reflexivity |].
    rewrite IH. reflexivity.
Qed.

Section AssignRelated.

Variable custom : nat -> obj -> obj.

(** A relation between the structure before and after, kept by the two
    operations at the last key along every key path in [Q], is kept by
    [assign] whatever the value. *)
Variable R : dict -> dict -> Prop.
Variable Q : list string -> Prop.
Hypothesis R_refl : forall d, R d d.
Hypothesis R_trans : forall a b c, R a b -> R b c -> R a c.
Hypothesis Q_app : forall keys k, Q keys -> Q (keys ++ [k])%list.
Hypothesis R_navigate :
  forall op keys data,
    (forall key config, exists new,
        snd (op key config) = config
        \/ snd (op key config) = dict_set key new config) ->
    Q keys -> R data (snd (navigate keys op data)).

Lemma store_scalar_sets (v : obj) (key : string) (config : dict) :
  exists new,
    snd (store_scalar v key config) = config
    \/ snd (store_scalar v key config) = dict_set key new config.
Proof.
  unfold store_scalar. destruct (lookup key config) as [stored |].
  - destruct (negb (py_eq stored v)).
    + eexists. right. reflexivity.
    + exists PNone. left. reflexivity.
  - eexists. right. reflexivity.
Qed.

Lemma store_sequence_sets (values : list obj) (t : transform) (key : string)
  (config : dict) :
  exists new,
    snd (store_sequence custom values t key config) = config
    \/ snd (store_sequence custom values t key config)
       = dict_set key new config.
Proof.
  unfold store_sequence. destruct (lookup key config) as [slot |] eqn:L.
  - rewrite L. destruct slot; try (exists PNone; left; reflexivity).
    eexists. right. reflexivity.
  - rewrite lookup_dict_set. simpl. eexists. right.
    apply dict_set_twice.
Qed.

Lemma related_leaf (value : obj) :
  match value with PDict _ => False | _ => True end -> related custom R Q value.
Proof.
  intros Hv m t keys data Hq.
  destruct value; try contradiction; simpl assign;
    apply R_navigate; try exact Hq; intros key config;
    first [ apply store_scalar_sets | apply store_sequence_sets ].
Qed.

Lemma related_dict (d : dict) :
  Forall (fun kv =>
            related custom R Q (snd kv)
            /\ forall v' t',
                 snd kv = PTransform v' t' -> related custom R Q v') d ->
  related custom R Q (PDict d).
Proof.
  intros IH m t keys. simpl.
  induction d as [| [k v] d IHd]; intros data Hq; [apply R_refl |].
  inversion IH as [| ? ? [Hv Hsub] Hrest]; subst. simpl in Hv, Hsub.
  unfold bind at 1.
  assert (Hstep :
            R data
              (snd (match m, v with
                    | templates, PTransform v' t' =>
                        assign custom m v' t' (keys ++ [k])%list
                    | _, _ => assign custom m v t (keys ++ [k])%list
                    end data))).
  { destruct m; [apply Hv, Q_app, Hq |].
    destruct v; try (apply Hv, Q_app, Hq).
    apply (Hsub v tr eq_refl), Q_app, Hq. }
  destruct (match m, v with
            | templates, PTransform v' t' =>
                assign custom m v' t' (keys ++ [k])%list
            | _, _ => assign custom m v t (keys ++ [k])%list
            end data) as [[[] | e] data1]; simpl in Hstep.
  - eapply R_trans; [exact Hstep |]. apply IHd; assumption.
  - exact Hstep.
Qed.

Lemma assign_related (value : obj) :
  related custom R Q value
  /\ forall v' t', value = PTransform v' t' -> related custom R Q v'.
Proof.
  induction value as [| b | s | id | tpl c sn kw _ _ | l _ | v tr IHv | l _
                      | d IH] using obj_nested_ind;
    try (split; [apply related_leaf; exact I | discriminate]).
  - split; [apply related_leaf; exact I |].
    intros v' t' E. inversion E; subst. apply IHv.
  - split; [apply related_dict; exact IH | discriminate].
Qed.

Lemma setitem_related (m : module) (keys : list string) (value : obj)
  (data : dict) :
  Q keys -> R data (snd (setitem custom m keys value data)).
Proof.
  intros Hq. unfold setitem. destruct (_get_transform value None) as [v t].
  apply assign_related. exact Hq.
Qed.

End AssignRelated.

Lemma dict_keys_set {A : Type} (k : string) (v : A) (d : list (string * A)) :
  exists added, dict_keys (dict_set k v d) = (dict_keys d ++ added)%list.
Proof.
  induction d as [| [k' v'] d IH]; simpl.
  - exists [k]. reflexivity.
  - destruct (String.eqb k k'); simpl.
    + exists []. rewrite app_nil_r. reflexivity.
    + destruct IH as [added IH]. exists added. unfold dict_keys in *.
      simpl. rewrite IH. reflexivity.
Qed.

Lemma navigate_top (op : string -> M dict unit) (keys : list string)
  (data : dict) :
  (forall key config, exists new,
      snd (op key config) = config
      \/ snd (op key config) = dict_set key new config) ->
  snd (navigate keys op data) = data
  \/ exists key rest new,
       keys = key :: rest
       /\ snd (navigate keys op data) = dict_set key new data.
Proof.
  intros Hop. destruct keys as [| key keys]; [left; reflexivity |].
  destruct keys as [| key' keys].
  - rewrite navigate_last. destruct (Hop key data) as [new [H | H]];
      [left; exact H | right; exists key, [], new; auto].
  - rewrite navigate_cons. destruct (lookup key data) as [slot |].
    + destruct slot; try (left; reflexivity).
      destruct (navigate (key' :: keys) op entries) as [r sub].
      right. eexists key, _, _. split; reflexivity.
    + destruct (navigate (key' :: keys) op []) as [r sub].
      right. eexists key, _, _. split; reflexivity.
Qed.

Section FrameFacts.

Variable custom : nat -> obj -> obj.

(** X11. An assignment at a key path, whatever the value and whether it
    returns or raises, leaves the entries of the structure under every other
    first key as they were. *)
Theorem other_keys_are_untouched (m : module) (key : string)
  (rest : list string) (value : obj) (data : dict) (k : string) :
  k <> key ->
  lookup k (snd (setitem custom m (key :: rest) value data)) = lookup k data.
Proof.
  intros Hk.
  apply (setitem_related custom
           (fun d d' => lookup k d' = lookup k d)
           (fun keys => exists rest', keys = key :: rest')).
  - reflexivity.
  - intros a b c H1 H2. rewrite H2. exact H1.
  - intros keys k' [rest' E]. subst. exists (rest' ++ [k'])%list.
    reflexivity.
  - intros op keys d Hop [rest' E]. subst keys.
    destruct (navigate_top op (key :: rest') d Hop)
      as [H | (key0 & rest0 & new & E & H)]; rewrite H; [reflexivity |].
    inversion E; subst. apply lookup_dict_set_other.
    apply String.eqb_neq. exact Hk.
  - exists rest. reflexivity.
Qed.

(** X12. An assignment never removes nor reorders the keys of the
    structure: the keys before are a prefix of the keys after, whatever the
    value and whether the assignment returns or raises. *)
Theorem keys_are_kept_in_order (m : module) (keys : list string)
  (value : obj) (data : dict) :
  exists added,
    dict_keys (snd (setitem custom m keys value data))
    = (dict_keys data ++ added)%list.
Proof.
  apply (setitem_related custom
           (fun d d' => exists added,
                dict_keys d' = (dict_keys d ++ added)%list)
           (fun _ => True)).
  - intros d. exists []. rewrite app_nil_r. reflexivity.
  - intros a b c [x Hx] [y Hy]. exists (x ++ y)%list.
    rewrite Hy, Hx, app_assoc. reflexivity.
  - trivial.
  - intros op ks d Hop _.
    destruct (navigate_top op ks d Hop)
      as [H | (key0 & rest0 & new & E & H)]; rewrite H.
    + exists []. rewrite app_nil_r. reflexivity.
    + apply dict_keys_set.
  - exact I.
Qed.

End FrameFacts.

(** ** The visitor on a structure without callable *)

Lemma mapM_pure {S A B : Type} (f : A -> M S B) (g : A -> B) (l : list A) :
  Forall (fun x => forall s, f x s = (Ok (g x), s)) l ->
  forall s, mapM f l s = (Ok (map g l), s).
Proof.
  induction l as [| x l IH]; intros Hf s; [reflexivity |].
  inversion Hf as [| ? ? Hx Hrest]; subst.
  cbn [mapM map]. unfold bind. rewrite Hx, (IH Hrest). reflexivity.
Qed.

Section InertFacts.

Context {W : Type} (rt : Runtime W) (m : module).

Lemma visit_settles (entries : dict) :
  Forall (fun kv => settles rt m (snd kv)) entries ->
  inert_dict entries = true ->
  forall w, visit rt m entries w = (Ok (settle entries), w).
Proof.
  intros Hf Hi w. unfold visit, settle, bind.
  rewrite (mapM_pure _ (fun kv => let '(k, v) := kv in (k, settle_value v))).
  - reflexivity.
  - clear w. induction entries as [| [k v] entries IH]; constructor.
    + inversion Hf as [| ? ? Hv _]; subst. simpl in Hv, Hi.
      apply andb_prop in Hi as [Hi _].
      intros s. unfold bind. rewrite (Hv Hi). reflexivity.
    + inversion Hf; subst. simpl in Hi. apply andb_prop in Hi as [_ Hi].
      apply IH; assumption.
Qed.

Lemma inert_not_callable (v : obj) : inert v = true -> callable v = false.
Proof.
  destruct v; simpl; intros H; try reflexivity; discriminate.
Qed.

Lemma settles_all (v : obj) :
  settles rt m v
  /\ forall entries,
       v = PDict entries -> Forall (fun kv => settles rt m (snd kv)) entries.
Proof.
  induction v as [| b | s | id | tpl c sn kw _ _ | l _ | x tr _ | l IHl
                  | d IHd] using obj_nested_ind;
    try (split; [intros Hi w; try discriminate; reflexivity | discriminate]).
  - (* list *)
    split; [| discriminate]. intros Hi w. rewrite visit_value_list.
    simpl in Hi. unfold bind.
    rewrite (mapM_pure _
               (fun e =>
                  match e with
                  | PDict entries =>
                      PDict (prune (map (fun kv =>
                                           let '(k, v) := kv in
                                           (k, settle_value v))
                                        entries))
                  | _ => e
                  end)).
    + simpl. destruct (forallb is_none _); reflexivity.
    + clear w. induction l as [| e l IH]; constructor.
      * inversion IHl as [| ? ? [_ He] _]; subst.
        apply andb_prop in Hi as [Hi _]. apply andb_prop in Hi as [Hc Hi].
        apply negb_true_iff in Hc. intros s. unfold visit_element.
        rewrite Hc. destruct e; try reflexivity.
        unfold bind. rewrite (visit_settles entries (He _ eq_refl) Hi).
        reflexivity.
      * inversion IHl; subst. apply andb_prop in Hi as [_ Hi].
        apply IH; assumption.
  - (* mapping *)
    assert (Hall : Forall (fun kv => settles rt m (snd kv)) d).
    { eapply Forall_impl; [| exact IHd]. intros kv [H _]. exact H. }
    split.
    + intros Hi w. rewrite visit_value_dict. unfold bind.
      rewrite (visit_settles d Hall Hi). simpl. unfold settle.
      destruct (prune _); reflexivity.
    + intros entries E. inversion E; subst. exact Hall.
Qed.

(** X13. On a structure without callable where the visitor looks, the
    visit makes no call and leaves the environment as it was: it returns the
    structure pruned. *)
Theorem visit_without_callable_is_pure (template : dict) (w : W) :
  inert_dict template = true ->
  visit rt m template w = (Ok (settle template), w).
Proof.
  intros Hi. apply visit_settles; [| exact Hi].
  apply (proj2 (settles_all (PDict template))). reflexivity.
Qed.

Lemma mapM_keys (f : obj -> M W obj) (entries : dict) :
  forall w entries' w',
    mapM (fun kv => let '(key, v) := kv in v' <- f v ;; ret (key, v'))
         entries w = (Ok entries', w') ->
    dict_keys entries' = dict_keys entries.
Proof.
  induction entries as [| [k v] entries IH]; intros w entries' w' H.
  - inversion H. reflexivity.
  - cbn [mapM] in H. unfold bind in H.
    destruct (f v w) as [[v' | e] w1]; [| discriminate].
    unfold ret at 1 in H.
    destruct (mapM _ entries w1) as [[rest | e] w2] eqn:E; [| discriminate].
    inversion H; subst. unfold dict_keys in *. simpl.
    rewrite (IH _ _ _ E). reflexivity.
Qed.

(** X14. The visitor only replaces values and deletes keys: what it
    returns is the pruning of a mapping with the keys of the template, in
    order, and it holds no [None] value. *)
Theorem visit_only_deletes_keys (template visited : dict) (w w' : W) :
  visit rt m template w = (Ok visited, w') ->
  (exists entries,
      dict_keys entries = dict_keys template /\ visited = prune entries)
  /\ Forall (fun kv => snd kv <> PNone) visited.
Proof.
  unfold visit, bind. intros H.
  destruct (mapM _ template w) as [[entries | e] w1] eqn:E; [| discriminate].
  inversion H; subst. split.
  - exists entries. split; [| reflexivity].
    exact (mapM_keys (visit_value rt m) template _ _ _ E).
  - apply Forall_forall. intros [k v] Hin. unfold prune in Hin.
    apply filter_In in Hin as [_ Hv]. simpl in *.
    intros Heq. subst v. discriminate.
Qed.

Lemma nest_cons (key key' : string) (keys : list string) (v : obj) :
  nest (key :: key' :: keys) v = [(key, PDict (nest (key' :: keys) v))].
Proof. reflexivity. Qed.

Lemma nest_not_empty (keys : list string) (v : obj) :
  keys <> [] -> nest keys v <> [].
Proof.
  destruct keys as [| k [| k' keys]]; intros H; try contradiction;
    discriminate.
Qed.

(** X15. The visit of a structure that holds one callable at a key path:
    the callable is called once; when it returns [None] the whole structure
    is emptied, at any depth, and otherwise its result stands at the same
    key path. *)
Theorem visit_of_a_single_path (keys : list string) (e r : obj) (w w' : W) :
  keys <> [] ->
  callable e = true ->
  call rt m e w = (Ok r, w') ->
  visit rt m (nest keys e) w
  = (Ok (if is_none r then [] else nest keys r), w').
Proof.
  intros Hn Hc He. induction keys as [| key keys IH]; [contradiction |].
  destruct keys as [| key' keys].
  - simpl. rewrite visit_singleton, (visit_value_callable rt m e Hc), He.
    destruct r; reflexivity.
  - rewrite nest_cons, visit_singleton, visit_value_dict. unfold bind.
    rewrite IH by discriminate.
    destruct (is_none r) eqn:Hr; [reflexivity |].
    rewrite nest_cons.
    pose proof (nest_not_empty (key' :: keys) r ltac:(discriminate)) as Hne.
    destruct (nest (key' :: keys) r) eqn:En; [contradiction |]. reflexivity.
Qed.

End InertFacts.

(** ** A second visit changes nothing *)

Lemma settle_cons (k : string) (v : obj) (d : dict) :
  settle ((k, v) :: d)
  = if is_none (settle_value v) then settle d
    else (k, settle_value v) :: settle d.
Proof.
  unfold settle, prune. simpl. destruct (is_none (settle_value v)); reflexivity.
Qed.

Lemma settle_twice (d : dict) :
  Forall (fun kv => settle_value (settle_value (snd kv))
                    = settle_value (snd kv)) d ->
  settle (settle d) = settle d.
Proof.
  induction d as [| [k v] d IH]; intros Hf; [reflexivity |].
  inversion Hf as [| ? ? Hv Hrest]; subst. simpl in Hv.
  rewrite settle_cons. destruct (is_none (settle_value v)) eqn:Hn.
  - apply IH. exact Hrest.
  - rewrite settle_cons, Hv, Hn, (IH Hrest). reflexivity.
Qed.

Lemma settle_value_list (l : list obj) :
  settle_value (PList l)
  = if forallb is_none (map settle_element l) then PNone
    else PList (map settle_element l).
Proof. reflexivity. Qed.

Lemma settle_value_dict (d : dict) :
  settle_value (PDict d)
  = match settle d with [] => PNone | _ => PDict (settle d) end.
Proof. unfold settle. simpl. destruct (prune _); reflexivity. Qed.

Lemma settled_twice (v : obj) :
  settle_value (settle_value v) = settle_value v
  /\ forall entries,
       v = PDict entries -> settle (settle entries) = settle entries.
Proof.
  induction v as [| b | s | id | tpl c sn kw _ _ | l _ | x tr _ | l IHl
                  | d IHd] using obj_nested_ind;
    try (split; [reflexivity | discriminate]).
  - split; [| discriminate]. rewrite settle_value_list.
    destruct (forallb is_none (map settle_element l)) eqn:Hn; [reflexivity |].
    rewrite settle_value_list.
    assert (E : map settle_element (map settle_element l)
                = map settle_element l).
    { clear Hn. induction l as [| e l IH]; [reflexivity |].
      inversion IHl as [| ? ? [_ He] Hrest]; subst. simpl.
      rewrite (IH Hrest). f_equal.
      destruct e; try reflexivity. simpl. rewrite (He _ eq_refl). reflexivity. }
    rewrite E, Hn. reflexivity.
  - assert (Hd : settle (settle d) = settle d).
    { apply settle_twice. eapply Forall_impl; [| exact IHd].
      intros kv [H _]. exact H. }
    split.
    + rewrite settle_value_dict. destruct (settle d) eqn:E; [reflexivity |].
      rewrite settle_value_dict, Hd. reflexivity.
    + intros entries E. inversion E; subst. exact Hd.
Qed.

Lemma inert_dict_settle (d : dict) :
  Forall (fun kv =>
            inert (snd kv) = true -> inert (settle_value (snd kv)) = true)
         d ->
  inert_dict d = true -> inert_dict (settle d) = true.
Proof.
  induction d as [| [k v] d IH]; intros Hf Hi; [reflexivity |].
  inversion Hf as [| ? ? Hv Hrest]; subst. simpl in Hv, Hi.
  apply andb_prop in Hi as [Hi1 Hi2].
  rewrite settle_cons. destruct (is_none (settle_value v)).
  - apply IH; assumption.
  - unfold inert_dict in *. simpl. rewrite (Hv Hi1). simpl.
    apply IH; assumption.
Qed.

Lemma inert_dict_value (d : dict) :
  inert (PDict d) = inert_dict d.
Proof. reflexivity. Qed.

Lemma inert_settled (v : obj) :
  (inert v = true -> inert (settle_value v) = true)
  /\ forall entries,
       v = PDict entries ->
       inert_dict entries = true -> inert_dict (settle entries) = true.
Proof.
  induction v as [| b | s | id | tpl c sn kw _ _ | l _ | x tr _ | l IHl
                  | d IHd] using obj_nested_ind;
    try (split; [intros H; exact H | discriminate]).
  - split; [| discriminate]. intros Hi. rewrite settle_value_list.
    destruct (forallb is_none (map settle_element l)); [reflexivity |].
    simpl in Hi |- *. clear - IHl Hi.
    induction l as [| e l IH]; [reflexivity |].
    inversion IHl as [| ? ? [_ He] Hrest]; subst. simpl in Hi |- *.
    apply andb_prop in Hi as [Hi1 Hi2]. rewrite (IH Hrest Hi2).
    rewrite andb_true_r. apply andb_prop in Hi1 as [Hc Hd].
    destruct e; try discriminate; try reflexivity.
    simpl. exact (He _ eq_refl Hd).
  - assert (Hd : inert_dict d = true -> inert_dict (settle d) = true).
    { apply inert_dict_settle. eapply Forall_impl; [| exact IHd].
      intros kv [H _]. exact H. }
    split.
    + rewrite inert_dict_value. intros Hi. rewrite settle_value_dict.
      specialize (Hd Hi).
      destruct (settle d) eqn:E; [reflexivity |].
      rewrite inert_dict_value. exact Hd.
    + intros entries E. inversion E; subst. exact Hd.
Qed.

Section SecondVisit.

Context {W : Type} (rt : Runtime W) (m : module).

(** X16. A structure without callable, once visited, is not changed by a
    second visit. *)
Theorem second_visit_changes_nothing (template visited : dict) (w w' : W) :
  inert_dict template = true ->
  visit rt m template w = (Ok visited, w') ->
  visit rt m visited w' = (Ok visited, w').
Proof.
  intros Hi H.
  rewrite (visit_settles rt m template) in H;
    [| apply (proj2 (settles_all rt m (PDict template))); reflexivity
     | exact Hi ].
  inversion H; subst visited w'. clear H.
  assert (Hs : inert_dict (settle template) = true).
  { apply (proj2 (inert_settled (PDict template)) template eq_refl Hi). }
  assert (Ht : settle (settle template) = settle template).
  { apply (proj2 (settled_twice (PDict template)) template eq_refl). }
  pose proof (visit_settles rt m (settle template)) as Hv.
  rewrite Ht in Hv. apply Hv; [| exact Hs].
  apply (proj2 (settles_all rt m (PDict (settle template)))). reflexivity.
Qed.

End SecondVisit.

(** ** The order of the calls *)

Section OrderFacts.

Context {W : Type} (rt : Runtime W) (m : module).









End OrderFacts.

(** ** The prompt of a conflict set *)

Section PromptFacts.

Context {W : Type} (rt : Runtime W) (m : module).

Lemma candidates_logged (Hr : functions_return rt) (values : list obj) :
  forallb (fun v => negb (is_instance v)) values = true ->
  forall log w, exists choices w',
    mapM (candidate (logged rt) m) values (log, w)
    = (Ok choices,
       ((log ++ map ECall (candidate_functions values))%list, w'))
    /\ List.length choices = List.length values
    /\ forall i v,
         nth_error values i = Some v -> callable v = false ->
         nth_error choices i = Some v.
Proof.
  induction values as [| x values IH]; intros Hi log w.
  - exists [], w. simpl. rewrite app_nil_r. repeat split.
    intros i v H. destruct i; discriminate.
  - simpl in Hi. apply andb_prop in Hi as [Hx Hi].
    assert (Hstep : exists r w1,
               candidate (logged rt) m x (log, w)
               = (Ok r,
                  ((log ++ map ECall (candidate_functions [x]))%list, w1))
               /\ (callable x = false -> r = x)).
    { destruct x as [| b | s | id | | | | |]; try discriminate;
        try (eexists; exists w; simpl; rewrite app_nil_r; split;
             [reflexivity | intros _; reflexivity]).
      destruct (Hr id w) as (r & w1 & H). exists r, w1.
      unfold candidate. simpl. rewrite H.
      split; [reflexivity | discriminate]. }
    destruct Hstep as (r & w1 & Hc & Hraw).
    destruct (IH Hi (log ++ map ECall (candidate_functions [x]))%list w1)
      as (choices & w2 & Hm & Hl & Hn).
    exists (r :: choices), w2. cbn [mapM]. unfold bind. rewrite Hc, Hm.
    split; [| split].
    + unfold ret. rewrite <- app_assoc, <- map_app.
      destruct x; reflexivity.
    + simpl. rewrite Hl. reflexivity.
    + intros i v H Hv. destruct i as [| i]; simpl in *.
      * inversion H; subst. rewrite (Hraw Hv). reflexivity.
      * apply Hn; assumption.
Qed.

(** X18. Calling a conflict set whose callable candidates are outside
    functions that return calls them in order, then prompts once; as many
    choices are offered as there are candidates, a candidate that is not
    callable being offered as it is. *)
Theorem candidates_then_one_prompt (values : list obj) (w : W) :
  functions_return rt ->
  forallb (fun v => negb (is_instance v)) values = true ->
  exists choices,
    trace (call (logged rt) m (PMultiple values)) w
    = (map ECall (candidate_functions values) ++ [EPrompt choices])%list
    /\ List.length choices = List.length values
    /\ forall i v,
         nth_error values i = Some v -> callable v = false ->
         nth_error choices i = Some v.
Proof.
  intros Hr Hi.
  destruct (candidates_logged Hr values Hi [] w)
    as (choices & w' & Hm & Hl & Hn).
  exists choices. split; [| split; assumption].
  unfold trace. rewrite call_multiple. unfold bind. rewrite Hm. simpl.
  destruct (prompt rt choices w'). reflexivity.
Qed.

End PromptFacts.

(** ** Patterns of one field *)

Lemma append_assoc_snoc (acc : string) (c : ascii) (rest : string) :
  acc ++ String c rest = snoc acc c ++ rest.
Proof. symmetry. apply snoc_append. Qed.

Lemma scan_name (text : string) (name : string) :
  forall acc rest,
    name_chars name = true ->
    scan (name ++ String "}" rest) (InField text acc)
    = if all_digits (acc ++ name) then ([], PUnmodelled)
      else yield (text, Some (acc ++ name)) (scan rest (InLiteral "")).
Proof.
  induction name as [| c name IH]; intros acc rest Hn.
  - simpl. rewrite append_empty. reflexivity.
  - simpl in Hn. apply andb_prop in Hn as [Hn Hrest].
    apply andb_prop in Hn as [Hn H3]. apply andb_prop in Hn as [H1 H2].
    apply negb_true_iff in H1, H2, H3.
    simpl. rewrite H1, H2, H3, (IH _ _ Hrest), <- append_assoc_snoc.
    reflexivity.
Qed.

Lemma scan_text (prefix : string) :
  forall acc c rest,
    no_braces prefix = true ->
    Ascii.eqb c "{"%char = false ->
    scan (prefix ++ String "{" (String c rest)) (InLiteral acc)
    = scan (String c rest) (InField (acc ++ prefix) "").
Proof.
  induction prefix as [| a prefix IH]; intros acc c rest Hp Hc.
  - simpl. rewrite Hc, append_empty. reflexivity.
  - simpl in Hp. apply andb_prop in Hp as [Hp Hrest].
    apply andb_prop in Hp as [H1 H2]. apply negb_true_iff in H1, H2.
    simpl. rewrite H1, H2, (IH _ _ _ Hrest Hc), <- append_assoc_snoc.
    reflexivity.
Qed.

Lemma append_assoc (a b c : string) : (a ++ b) ++ c = a ++ (b ++ c).
Proof. induction a; simpl; congruence. Qed.

(** A pattern [prefix{name}]: one item. *)
Lemma parse_one_field (prefix name : string) :
  no_braces prefix = true ->
  plain_name name = true ->
  parse (prefix ++ String "{" (name ++ "}")) = ([(prefix, Some name)], PEnd).
Proof.
  intros Hp Hn. unfold plain_name in Hn. apply andb_prop in Hn as [Hc Hd].
  apply negb_true_iff in Hd. unfold parse.
  destruct name as [| c name]; [discriminate |].
  assert (Hb : Ascii.eqb c "{"%char = false).
  { simpl in Hc. destruct (Ascii.eqb c "{"%char); [| reflexivity].
    rewrite andb_false_r in Hc. discriminate. }
  change (String c name ++ "}") with (String c (name ++ "}")).
  rewrite (scan_text prefix "" c (name ++ "}") Hp Hb).
  change (String c (name ++ "}")) with (String c name ++ String "}" "").
  rewrite (scan_name _ (String c name) "" "" Hc).
  change ("" ++ String c name) with (String c name). rewrite Hd.
  reflexivity.
Qed.

Section OneField.

Context {W : Type} (rt : Runtime W).

(** X19. [utils.Requires.__call__] on a pattern [prefix{name}], the name a
    keyword that [str.format] cannot take for a number, in an environment
    whose [push] and [pull] return and with a sanitizer that returns: one
    push if an override is given for [name], then one pull, then the
    sanitizer; the result is [None] when the sanitized value is falsy, and
    the prefix followed by the sanitized value otherwise. *)
Theorem one_field_in_utils (prefix name : string) (confirmed : bool)
  (sanitizer : option nat) (kwargs : dict) (w : W) :
  no_braces prefix = true ->
  plain_name name = true ->
  Requires_call rt (PStr (prefix ++ String "{" (name ++ "}")))
                confirmed sanitizer kwargs w
  = let w1 := match lookup name kwargs with
              | Some v => push rt name v confirmed w
              | None => w
              end in
    let (v, w2) := pull rt name w1 in
    let v' := apply_sanitizer rt sanitizer (Some name) v in
    (if truthy v' then Ok (PStr (prefix ++ str_of rt v')) else Ok PNone, w2).
Proof.
  intros Hp Hn. unfold Requires_call.
  rewrite (parse_one_field prefix name Hp Hn). simpl.
  destruct (lookup name kwargs) as [v0 |];
    match goal with
    | |- context [pull rt name ?s] => destruct (pull rt name s) as [v w2]
    end;
    simpl; rewrite String.eqb_refl;
    destruct (truthy (apply_sanitizer rt sanitizer (Some name) v));
    simpl; rewrite ?append_empty; reflexivity.
Qed.

(** X20. [templates.RenderContext.render_string] on a pattern
    [prefix{name}], the name a keyword that [str.format] cannot take for a
    number, with a sanitizer that returns: one write if an override is given
    for [name], then one read; the result is [None] when the value read is
    falsy (the sanitizer is not consulted) or when the read raises
    [ValueError]; any other exception of the read leaves the call, as the
    unpacking reports it ([AttributeError] as [TypeError]); otherwise the
    result is the prefix followed by the sanitized value. *)
Theorem one_field_in_templates (prefix name : string) (confirmed : bool)
  (sanitizer : option nat) (kwargs : dict) (w : W) :
  no_braces prefix = true ->
  plain_name name = true ->
  render_string rt confirmed sanitizer
                (PStr (prefix ++ String "{" (name ++ "}"))) kwargs w
  = let w1 := match lookup name kwargs with
              | Some v => env_setitem rt name v confirmed w
              | None => w
              end in
    match env_getitem rt (Some name) w1 with
    | (Ok v, w2) =>
        if truthy v
        then (Ok (PStr (prefix
                        ++ str_of rt (apply_sanitizer rt sanitizer
                                                      (Some name) v))), w2)
        else (Ok PNone, w2)
    | (Raise ValueError, w2) => (Ok PNone, w2)
    | (Raise e, w2) => (Raise (unpack_error e), w2)
    end.
Proof.
  intros Hp Hn. unfold render_string.
  rewrite (parse_one_field prefix name Hp Hn).
  change (iter_set rt (item_keys [(prefix, Some name)])) with [Some name].
  cbn [set_overrides].
  unfold suppress_ValueError, unpack, RenderContext_getitem.
  cbn [mapM]. unfold bind, ret, raise.
  destruct (lookup name kwargs) as [v0 |];
    match goal with
    | |- context [env_getitem rt (Some name) ?s] =>
        destruct (env_getitem rt (Some name) s) as [[v | e] w2]
    end;
    try (destruct e; reflexivity);
    destruct (truthy v); try reflexivity;
    simpl; rewrite String.eqb_refl, ?append_empty; reflexivity.
Qed.

(** X21. [PythonEnv.requires], once called, reads its variable once (a
    keyword that [str.format] cannot take for a number) and returns its
    value, or [None] when the value is falsy or the read raises
    [ValueError]; any other exception of the read leaves the call, as the
    unpacking reports it. *)
Theorem PythonEnv_requires_reads_the_variable (variable : string) (w : W) :
  plain_name variable = true ->
  call rt templates (PythonEnv_requires variable) w
  = match env_getitem rt (Some variable) w with
    | (Ok v, w') =>
        if truthy v then (Ok (PStr (str_of rt v)), w') else (Ok PNone, w')
    | (Raise ValueError, w') => (Ok PNone, w')
    | (Raise e, w') => (Raise (unpack_error e), w')
    end.
Proof.
  intros Hn. unfold PythonEnv_requires, Requires. cbn [call].
  change (String "{" (variable ++ "}"))
    with ("" ++ String "{" (variable ++ "}")).
  unfold render_string.
  rewrite (parse_one_field "" variable eq_refl Hn).
  change (iter_set rt (item_keys [("", Some variable)]))
    with [Some variable].
  cbn [set_overrides lookup].
  unfold suppress_ValueError, unpack, RenderContext_getitem.
  cbn [mapM]. unfold bind, ret, raise.
  destruct (env_getitem rt (Some variable) w) as [[v | e] w2];
    try (destruct e; reflexivity).
  destruct (truthy v); try reflexivity.
  simpl. rewrite String.eqb_refl, ?append_empty. reflexivity.
Qed.

End OneField.

(** ** Escaped text *)

Lemma concat_cons (x : string) (l : list string) :
  String.concat "" (x :: l) = x ++ String.concat "" l.
Proof. destruct l; simpl; [rewrite append_empty |]; reflexivity. Qed.

Lemma scan_escape (s : string) :
  forall acc,
    no_braces acc = true ->
    exists items,
      scan (escape s) (InLiteral acc) = (items, PEnd)
      /\ fields items = []
      /\ String.concat "" (map fst items) = acc ++ s.
Proof.
  induction s as [| c s IH]; intros acc Ha.
  - exists (plain_items acc). simpl. rewrite append_empty.
    destruct acc; simpl; auto.
  - simpl escape.
    destruct (Ascii.eqb c "{"%char) eqn:E1;
      [| destruct (Ascii.eqb c "}"%char) eqn:E2]; simpl orb; cbv iota.
    + apply Ascii.eqb_eq in E1. subst c.
      destruct (IH "" eq_refl) as (items & Hs & Hf & Hc).
      exists ((snoc acc "{"%char, None) :: items).
      split; [simpl; rewrite Hs; reflexivity |].
      split; [exact Hf |].
      cbn [map fst]. rewrite concat_cons, Hc. simpl. apply snoc_append.
    + apply Ascii.eqb_eq in E2. subst c.
      destruct (IH "" eq_refl) as (items & Hs & Hf & Hc).
      exists ((snoc acc "}"%char, None) :: items).
      split; [simpl; rewrite Hs; reflexivity |].
      split; [exact Hf |].
      cbn [map fst]. rewrite concat_cons, Hc. simpl. apply snoc_append.
    + assert (Hsn : no_braces (snoc acc c) = true).
      { clear - Ha E1 E2. unfold snoc. induction acc as [| a acc IHa]; simpl.
        - rewrite E1, E2. reflexivity.
        - simpl in Ha. apply andb_prop in Ha as [Ha1 Ha2].
          rewrite Ha1. apply IHa. exact Ha2. }
      destruct (IH (snoc acc c) Hsn) as (items & Hs & Hf & Hc).
      exists items. simpl. rewrite E1, E2, Hs.
      split; [reflexivity |]. split; [exact Hf |].
      rewrite Hc. apply snoc_append.
Qed.

(** X22. In [utils], a template whose braces are all doubled resolves to
    the text with single braces, without a call to the environment. *)
Theorem escaped_text_resolves_to_itself {W : Type} (rt : Runtime W)
  (text : string) (confirmed : bool) (sanitizer : option nat)
  (kwargs : dict) (w : W) :
  Requires_call rt (PStr (escape text)) confirmed sanitizer kwargs w
  = (Ok (PStr text), w).
Proof.
  destruct (scan_escape text "" eq_refl) as (items & Hs & Hf & Hc).
  rewrite (Requires_call_literal rt (escape text) items confirmed sanitizer
             kwargs w Hs Hf), Hc.
  reflexivity.
Qed.

(** ** The further properties at work *)

Lemma sequence_onto_mapping_fails_witness :
  setitem (fun _ v => v) utils ["a"] (PList [PStr "x"]) [("a", PDict [])]
  = (Raise AssertionError, [("a", PDict [])]).
Proof.
  exact (sequence_onto_mapping_fails (fun _ v => v) utils ["a"]
           (PList [PStr "x"]) [PStr "x"] [] [("a", PDict [])]
           eq_refl eq_refl).
Defined.

Lemma scalar_assignment_outcome_witness :
  fst (setitem (fun _ v => v) utils ["a"; "b"] (PStr "x") [("a", PNone)])
  = Raise TypeError.
Proof.
  exact (proj1 (scalar_assignment_outcome (fun _ v => v) utils ["a"; "b"]
                  (PStr "x") [("a", PNone)] eq_refl eq_refl)).
Defined.

Lemma path_after_scalar_assignment_witness :
  get_path ["a"] [("a", PMultiple [Requires "x"; Requires "y"])]
  = Some (PMultiple [Requires "x"; Requires "y"]).
Proof.
  exact (path_after_scalar_assignment (fun _ v => v) utils ["a"] (PStr "x")
           [("a", Requires "y")]
           [("a", PMultiple [Requires "x"; Requires "y"])]
           eq_refl eq_refl).
Defined.


Lemma conflict_set_grows_at_its_head_witness :
  exists data',
    setitem (fun _ v => v) utils ["a"] (PStr "x")
            [("a", PMultiple [Requires "y"; Requires "z"])]
    = (Ok tt, data')
    /\ get_path ["a"] data'
       = Some (PMultiple [Requires "x"; Requires "y"; Requires "z"]).
Proof.
  exact (conflict_set_grows_at_its_head (fun _ v => v) utils ["a"]
           (PStr "x") [Requires "y"; Requires "z"]
           [("a", PMultiple [Requires "y"; Requires "z"])]
           eq_refl eq_refl eq_refl).
Defined.

Lemma first_assignment_builds_the_path_witness :
  setitem (fun _ v => v) utils ["a"; "b"] (PStr "x") []
  = (Ok tt, [("a", PDict [("b", Requires "x")])])
  /\ setitem (fun _ v => v) utils ["a"; "b"]
             (PList [PStr "x"; PFun 1; PStr "x"; PFun 1]) []
     = (Ok tt,
        [("a", PDict [("b", PList [Requires "x"; PFun 1; Requires "x"])])]).
Proof.
  split.
  - apply (first_assignment_builds_the_path (fun _ v => v) utils ["a"; "b"]
             (PStr "x")); [discriminate | reflexivity | reflexivity].
  - apply (proj2 (first_assignment_builds_the_path (fun _ v => v) utils
                    ["a"; "b"] (PList [PStr "x"; PFun 1; PStr "x"; PFun 1])
                    ltac:(discriminate))
             [PStr "x"; PFun 1; PStr "x"; PFun 1]); reflexivity.
Defined.


Lemma callables_are_stored_once_witness :
  setitem (fun _ v => v) utils ["a"] (PList [PFun 1])
          [("a", PList [PFun 1])]
  = (Ok tt, [("a", PList [PFun 1])]).
Proof.
  apply (callables_are_stored_once (fun _ v => v) utils ["a"]
           (PList [PFun 1]) [PFun 1] [] [("a", PList [])]);
    [reflexivity | | reflexivity | reflexivity].
  constructor; [split; reflexivity | constructor].
Defined.

Lemma other_keys_are_untouched_witness :
  lookup "b"
    (snd (setitem (fun _ v => v) utils ["a"; "c"] (PDict [("b", PStr "x")])
                  [("b", PNone)]))
  = lookup "b" [("b", PNone)].
Proof.
  apply (other_keys_are_untouched (fun _ v => v) utils "a" ["c"]
           (PDict [("b", PStr "x")]) [("b", PNone)] "b").
  discriminate.
Defined.

Lemma visit_without_callable_is_pure_witness :
  visit SpecEnv.runtime utils
        [("a", PStr "x"); ("b", PDict []); ("c", PList [PNone])] []
  = (Ok [("a", PStr "x")], []).
Proof.
  exact (visit_without_callable_is_pure SpecEnv.runtime utils
           [("a", PStr "x"); ("b", PDict []); ("c", PList [PNone])] []
           eq_refl).
Defined.

Lemma visit_only_deletes_keys_witness :
  (exists entries,
      dict_keys entries = ["a"; "b"]
      /\ [("b", PStr "made")] = prune entries)
  /\ Forall (fun kv => snd kv <> PNone) [("b", PStr "made")].
Proof.
  exact (visit_only_deletes_keys SpecEnv.runtime utils
           [("a", PFun 0); ("b", PFun 1)] [("b", PStr "made")] [] []
           eq_refl).
Defined.

Lemma visit_of_a_single_path_witness :
  visit SpecEnv.runtime utils [("a", PDict [("b", PFun 1)])] []
  = (Ok [("a", PDict [("b", PStr "made")])], []).
Proof.
  apply (visit_of_a_single_path SpecEnv.runtime utils ["a"; "b"] (PFun 1)
           (PStr "made") [] []); [discriminate | reflexivity | reflexivity].
Defined.

Lemma second_visit_changes_nothing_witness :
  visit SpecEnv.runtime utils [("a", PStr "x")] [] = (Ok [("a", PStr "x")], []).
Proof.
  exact (second_visit_changes_nothing SpecEnv.runtime utils
           [("a", PStr "x"); ("b", PDict [])] [("a", PStr "x")] [] []
           eq_refl eq_refl).
Defined.


Lemma candidates_then_one_prompt_witness :
  exists choices,
    trace (call (logged SpecEnv.runtime) utils
                (PMultiple [PFun 1; PStr "x"])) []
    = [ECall 1; EPrompt choices]
    /\ List.length choices = 2
    /\ forall i v,
         nth_error [PFun 1; PStr "x"] i = Some v -> callable v = false ->
         nth_error choices i = Some v.
Proof.
  apply (candidates_then_one_prompt SpecEnv.runtime utils
           [PFun 1; PStr "x"] []); [| reflexivity].
  intros id s. eexists. eexists. reflexivity.
Defined.

Lemma one_field_in_utils_witness :
  Requires_call SpecEnv.runtime (PStr "v{A}") false None []
                (SpecEnv.of_list [("A", "x")])
  = (Ok (PStr "vx"), SpecEnv.of_list [("A", "x")]).
Proof.
  exact (one_field_in_utils SpecEnv.runtime "v" "A" false None []
           (SpecEnv.of_list [("A", "x")]) eq_refl eq_refl).
Defined.

Lemma one_field_in_templates_witness :
  render_string SpecEnv.runtime false None (PStr "v{A}") []
                (SpecEnv.of_list [("A", "x")])
  = (Ok (PStr "vx"), SpecEnv.of_list [("A", "x")]).
Proof.
  exact (one_field_in_templates SpecEnv.runtime "v" "A" false None []
           (SpecEnv.of_list [("A", "x")]) eq_refl eq_refl).
Defined.

Lemma PythonEnv_requires_reads_the_variable_witness :
  call SpecEnv.runtime templates (PythonEnv_requires PYTHON_CMD)
       (SpecEnv.of_list [("PYTHON_CMD", "python3")])
  = (Ok (PStr "python3"), SpecEnv.of_list [("PYTHON_CMD", "python3")]).
Proof.
  exact (PythonEnv_requires_reads_the_variable SpecEnv.runtime PYTHON_CMD
           (SpecEnv.of_list [("PYTHON_CMD", "python3")]) eq_refl).
Defined.

Lemma ior_assigns_each_entry_witness :
  ior (fun _ v => v) utils
      (PDict [("name", PStr "{NAME}"); ("tags", PList [PStr "{TAG}"])]) []
  = (Ok tt, [("name", Requires "{NAME}"); ("tags", PList [Requires "{TAG}"])])
  /\ ior (fun _ v => v) utils (PStr "name") [("k", PNone)]
     = (Raise AssertionError, [("k", PNone)]).
Proof.
  destruct (ior_assigns_each_entry (fun _ v => v) utils
              [("name", PStr "{NAME}"); ("tags", PList [PStr "{TAG}"])]
              (PStr "name") [] (or_intror eq_refl)) as [H1 _].
  destruct (ior_assigns_each_entry (fun _ v => v) utils
              [("name", PStr "{NAME}"); ("tags", PList [PStr "{TAG}"])]
              (PStr "name") [("k", PNone)] (or_intror eq_refl)) as [_ H2].
  split; [rewrite H1; reflexivity | apply H2; exact I].
Defined.
